(** * eslint-plugin-node: no-unsupported-ecma-features

    A shallow embedding of the scope locator ([get-innermost-scope]) and of
    the rule [no-unsupported-ecma-features] (option parsing, visitor merge,
    the reporting wrapper and the end-of-traversal pass), with the
    properties of the specification stated and settled on it.

    Part I holds the definitions, component by component, in the order of
    the source; Part II holds the lemmas and theorems. *)

From Stdlib Require Import ZArith Lia Ascii String DecimalString PrimFloat.
From stdpp Require Import gmap strings list fin_maps.

Set Warnings "-register-all,-inexact-float".
Local Open Scope Z_scope.

(* ===================================================================== *)
(** * Part I: definitions                                                 *)
(* ===================================================================== *)

(* --------------------------------------------------------------------- *)
(** ** Scope locator (lib/util/get-innermost-scope.js)                    *)
(* --------------------------------------------------------------------- *)

(** An [escope.Scope], as far as the rule reads it: [block.range] (a pair
    of byte offsets, half open), [isStrict] and [childScopes]. *)
Inductive Scope : Type :=
  mkScope (range0 range1 : Z) (strict : bool) (children : list Scope).

Definition blockRange (scope : Scope) : Z * Z :=
  match scope with mkScope r0 r1 _ _ => (r0, r1) end.

Definition isStrictScope (scope : Scope) : bool :=
  match scope with mkScope _ _ s _ => s end.

Definition childScopes (scope : Scope) : list Scope :=
  match scope with mkScope _ _ _ cs => cs end.

(** [range[0] <= location && location < range[1]] for
    [range = childScope.block.range]. *)
Definition containsLocation (childScope : Scope) (location : Z) : bool :=
  let range := blockRange childScope in
  (range.1 <=? location) && (location <? range.2).

(** The [for (const childScope of scope.childScopes)] loop with its
    [break]: the value of the variable [scope] when the loop is left.  The
    first child whose range contains the location is assigned; when the
    loop runs off the end of the array, [scope] is what it was. *)
Fixpoint scanChildScopes (cs : list Scope) (location : Z) (scope : Scope)
  : Scope :=
  match cs with
  | [] => scope
  | childScope :: rest =>
      if containsLocation childScope location then childScope
      else scanChildScopes rest location scope
  end.

(** [getInnermostScope(initialScope, location)].  The [while] loop is
    unrolled [fuel] times; [None] says that the loop has not been left
    after [fuel] tests of its condition. *)
Fixpoint getInnermostScope (fuel : nat) (initialScope : Scope) (location : Z)
  : option Scope :=
  match fuel with
  | O => None
  | S fuel' =>
      match childScopes initialScope with
      | [] => Some initialScope
      | _ :: _ =>
          getInnermostScope fuel'
            (scanChildScopes (childScopes initialScope) location initialScope)
            location
      end
  end.

(** The invariant of the data model: sibling ranges are disjoint and every
    child's range lies inside its parent's, all the way down. *)
Definition within (child parent : Scope) : Prop :=
  (blockRange parent).1 <= (blockRange child).1 /\
  (blockRange child).2 <= (blockRange parent).2.

Definition disjointRanges (a b : Scope) : Prop :=
  (blockRange a).2 <= (blockRange b).1 \/ (blockRange b).2 <= (blockRange a).1.

Fixpoint pairwiseDisjoint (cs : list Scope) : Prop :=
  match cs with
  | [] => True
  | c :: rest => Forall (disjointRanges c) rest /\ pairwiseDisjoint rest
  end.

Fixpoint wellFormed (scope : Scope) : Prop :=
  match scope with
  | mkScope _ _ _ cs =>
      pairwiseDisjoint cs /\
      (fix all (l : list Scope) : Prop :=
         match l with
         | [] => True
         | c :: rest => (within c scope /\ wellFormed c) /\ all rest
         end) cs
  end.

(** What the specification asks of the result: its range contains the
    offset and no child's range does. *)
Definition innermostAt (location : Z) (scope : Scope) : Prop :=
  containsLocation scope location = true /\
  Forall (fun c => containsLocation c location = false) (childScopes scope).

(** A file of ten bytes whose only function occupies the first five: the
    global scope with one child scope. *)
Definition gapScope : Scope :=
  mkScope 0 10 false [mkScope 0 5 false []].

(** A deeper tree: a strict function at [10,50) that holds an inner function
    at [20,30), and a second top-level function at [60,90). *)
Definition nestedScope : Scope :=
  mkScope 0 100 false
    [ mkScope 10 50 true [mkScope 20 30 true []];
      mkScope 60 90 false [] ].

(* --------------------------------------------------------------------- *)
(** ** The semver package, as the rule uses it                            *)
(* --------------------------------------------------------------------- *)

(** [semver] is an external dependency.  The rule calls two of its
    functions, [validRange] and [intersects], on three kinds of text: the
    configured version behind [">="], a threshold of the catalog behind
    ["<"], and the default version, which is either ["6.0.0"] or a range
    that [validRange] itself has printed.  The model covers that fragment:
    full versions [X.Y.Z] of numeric identifiers, the comparators
    [<], [<=], [>], [>=], [=] and the bare version, sets of comparators
    separated by one space, and sets joined by [||].  On a text of that
    shape [None] is the [null] of semver, which accepts no version with a
    number above [Number.MAX_SAFE_INTEGER].  Other range syntax ([*],
    tildes, carets, hyphens, x-ranges, partial versions, prerelease tags)
    is outside the model: there [None] is no answer, and only texts of
    the fragment are used where a result is drawn from [None].
    [validRange] prints the range it has parsed and [intersects] parses
    that text again; the model keeps the parsed range. *)
Module semver.

Record SemVer : Type := mkSemVer { major : N; minor : N; patch : N }.

Definition MAX_SAFE_INTEGER : N := 9007199254740991.

(** [compareIdentifiers] on the three numeric fields, in turn. *)
Definition compare (a b : SemVer) : comparison :=
  match N.compare (major a) (major b) with
  | Eq =>
      match N.compare (minor a) (minor b) with
      | Eq => N.compare (patch a) (patch b)
      | c => c
      end
  | c => c
  end.

Definition lt (a b : SemVer) : bool :=
  match compare a b with Lt => true | _ => false end.
Definition gt (a b : SemVer) : bool :=
  match compare a b with Gt => true | _ => false end.
Definition eq (a b : SemVer) : bool :=
  match compare a b with Eq => true | _ => false end.
Definition lte (a b : SemVer) : bool := negb (gt a b).
Definition gte (a b : SemVer) : bool := negb (lt a b).

Definition digitValue (c : ascii) : option N :=
  let n := N_of_ascii c in
  if ((48 <=? n) && (n <=? 57))%N then Some (n - 48)%N else None.

Fixpoint digitsValue (acc : N) (s : string) : option N :=
  match s with
  | EmptyString => Some acc
  | String c rest =>
      match digitValue c with
      | Some d => digitsValue (10 * acc + d)%N rest
      | None => None
      end
  end.

(** A numeric identifier, [0|[1-9]\d*], no larger than
    [Number.MAX_SAFE_INTEGER]. *)
Definition parseNumeric (s : string) : option N :=
  match s with
  | EmptyString => None
  | String "0" (String _ _) => None
  | _ =>
      match digitsValue 0 s with
      | Some n => if (n <=? MAX_SAFE_INTEGER)%N then Some n else None
      | None => None
      end
  end.

(** The pieces of [s] between the occurrences of the character [sep]. *)
Fixpoint splitOn (sep : ascii) (s : string) : list string :=
  match s with
  | EmptyString => [EmptyString]
  | String c rest =>
      if Ascii.eqb c sep then EmptyString :: splitOn sep rest
      else
        match splitOn sep rest with
        | piece :: pieces => String c piece :: pieces
        | [] => [String c EmptyString]
        end
  end.

(** A full version, [X.Y.Z]. *)
Definition parseVersion (s : string) : option SemVer :=
  match splitOn "." s with
  | [a; b; c] =>
      match parseNumeric a, parseNumeric b, parseNumeric c with
      | Some x, Some y, Some z => Some (mkSemVer x y z)
      | _, _, _ => None
      end
  | _ => None
  end.

(** The operator of a comparator; [OpEq] is the empty operator, which [=]
    is turned into. *)
Inductive Operator : Type := OpEq | OpLt | OpLe | OpGt | OpGe.

Record Comparator : Type :=
  mkComparator { operator : Operator; version : SemVer }.

Definition parseComparator (s : string) : option Comparator :=
  match s with
  | String ">" (String "=" v) => mkComparator OpGe <$> parseVersion v
  | String "<" (String "=" v) => mkComparator OpLe <$> parseVersion v
  | String ">" v => mkComparator OpGt <$> parseVersion v
  | String "<" v => mkComparator OpLt <$> parseVersion v
  | String "=" v => mkComparator OpEq <$> parseVersion v
  | v => mkComparator OpEq <$> parseVersion v
  end.

(** A range: the sets of comparators that [||] joins. *)
Definition Range : Type := list (list Comparator).

Definition nonEmpty (s : string) : bool :=
  match s with EmptyString => false | String _ _ => true end.

Definition parseComparatorSet (s : string) : option (list Comparator) :=
  match filter (fun piece => nonEmpty piece = true) (splitOn " " s) with
  | [] => None
  | pieces => mapM parseComparator pieces
  end.

(** The pieces of [s] between the occurrences of [||]. *)
Fixpoint splitOr (s : string) : list string :=
  match s with
  | EmptyString => [EmptyString]
  | String "|" (String "|" rest) => EmptyString :: splitOr rest
  | String c rest =>
      match splitOr rest with
      | piece :: pieces => String c piece :: pieces
      | [] => [String c EmptyString]
      end
  end.

(** [semver.validRange(text)] on the fragment: the range, or [None] for
    JavaScript's [null].  Outside the fragment [None] says nothing. *)
Definition validRange (text : string) : option Range :=
  mapM parseComparatorSet (splitOr text).

(** [cmp(a, op, b)]. *)
Definition cmp (a : SemVer) (op : Operator) (b : SemVer) : bool :=
  match op with
  | OpEq => eq a b
  | OpLt => lt a b
  | OpLe => lte a b
  | OpGt => gt a b
  | OpGe => gte a b
  end.

(** [Comparator.prototype.test]. *)
Definition test (c : Comparator) (v : SemVer) : bool :=
  cmp v (operator c) (version c).

Definition increasing (op : Operator) : bool :=
  match op with OpGe | OpGt => true | _ => false end.
Definition decreasing (op : Operator) : bool :=
  match op with OpLe | OpLt => true | _ => false end.
Definition inclusive (op : Operator) : bool :=
  match op with OpGe | OpLe => true | _ => false end.
Definition isOpEq (op : Operator) : bool :=
  match op with OpEq => true | _ => false end.

(** [Comparator.prototype.intersects]. *)
Definition comparatorIntersects (this comp : Comparator) : bool :=
  if isOpEq (operator this) then test comp (version this)
  else if isOpEq (operator comp) then test this (version comp)
  else
    let sameDirectionIncreasing :=
      increasing (operator this) && increasing (operator comp) in
    let sameDirectionDecreasing :=
      decreasing (operator this) && decreasing (operator comp) in
    let sameSemVer := eq (version this) (version comp) in
    let differentDirectionsInclusive :=
      inclusive (operator this) && inclusive (operator comp) in
    let oppositeDirectionsLessThan :=
      lt (version this) (version comp) &&
      (increasing (operator this) && decreasing (operator comp)) in
    let oppositeDirectionsGreaterThan :=
      gt (version this) (version comp) &&
      (decreasing (operator this) && increasing (operator comp)) in
    sameDirectionIncreasing || sameDirectionDecreasing ||
    (sameSemVer && differentDirectionsInclusive) ||
    oppositeDirectionsLessThan || oppositeDirectionsGreaterThan.

(** [Range.prototype.intersects]: some set of this range, each of whose
    comparators meets every comparator of some set of the other range. *)
Definition rangeIntersects (this range : Range) : bool :=
  existsb (fun thisComparators =>
    forallb (fun thisComparator =>
      existsb (fun rangeComparators =>
        forallb (fun rangeComparator =>
          comparatorIntersects thisComparator rangeComparator)
          rangeComparators)
        range)
      thisComparators)
    this.

(** [semver.intersects(r1, r2)], with [r1] what [validRange] returned.
    On the fragment [None] stands for the [TypeError] that [new Range]
    throws on [null] and on text that is not a range. *)
Definition intersects (r1 : option Range) (r2 : string) : option bool :=
  match r1, validRange r2 with
  | Some this, Some range => Some (rangeIntersects this range)
  | _, _ => None
  end.

End semver.

(* --------------------------------------------------------------------- *)
(** ** Version resolver (lib/rules/no-unsupported-ecma-features.js)       *)
(* --------------------------------------------------------------------- *)

(** A descriptor of the catalog [lib/util/ecma-features.js], as
    [parseOptions] reads it.  [node] is a version, [null], or an object
    with the optional fields [sloppy] and [strict]; [singular] is [true] or
    left out. *)
Module Feature.

Inductive Node : Type :=
| NodeVersion (v : string)
| NodeNull
| NodeByMode (sloppy strict : option string).

Record t : Type :=
  mk { alias : list string; name : string; singular : option bool; node : Node }.

End Feature.

(** An entry of the support table. *)
Record FeatureSupport : Type := mkFeatureSupport {
  name : string;
  singular : bool;
  supported : bool;
  supportedInStrict : bool
}.

(** The value of [parseOptions]: the frozen object [{version, features}]. *)
Record SupportInfo : Type := mkSupportInfo {
  version : string;
  features : gmap string FeatureSupport
}.

(** The rule's option: nothing, a number, a string, or an object
    [{version, ignores}] with both fields optional.  A number is a double,
    as in JavaScript; a literal stands for the double nearest to it. *)
Inductive VersionOption : Type :=
| VUndefined
| VNumber (n : float)
| VString (s : string).

Inductive Options : Type :=
| OptUndefined
| OptNumber (n : float)
| OptString (s : string)
| OptObject (version : VersionOption) (ignores : option (list string)).

Definition VERSION_MAP : list (float * string) :=
  [ (0.1, "0.10.0"); (0.12, "0.12.0"); (4, "4.0.0"); (5, "5.0.0");
    (6, "6.0.0"); (6.5, "6.5.0"); (7, "7.0.0"); (7.6, "7.6.0");
    (8, "8.0.0"); (8.3, "8.3.0"); (9, "9.0.0"); (10, "10.0.0") ]%float.

(** The comparison of the keys of a [Map], SameValueZero: equality of
    doubles, with [+0] equal to [-0] and [NaN] equal to itself. *)
Definition sameValueZero (a b : float) : bool :=
  PrimFloat.eqb a b || (PrimFloat.is_nan a && PrimFloat.is_nan b).

(** [VERSION_MAP.get(n)]; [None] is [undefined]. *)
Definition VERSION_MAP_get (n : float) : option string :=
  snd <$> List.find (fun entry => sameValueZero (fst entry) n) VERSION_MAP.

Definition DEFAULT_VERSION : string := "6.0.0".

(** [ignores.indexOf(key) !== -1]. *)
Definition includes (ignores : list string) (key : string) : bool :=
  existsb (String.eqb key) ignores.

(** Truthiness of a value that is a string or [undefined]. *)
Definition truthy (v : option string) : bool :=
  match v with
  | Some (String _ _) => true
  | _ => false
  end.

Section Resolver.

(** The catalog module, [require("../util/ecma-features")]. *)
Variable ecmaFeatures : gmap string Feature.t.

(** [Object.keys(features)]. *)
Definition OPTIONS : list string := (map_to_list ecmaFeatures).*1.

(** [isIgnored(key, ignores)].  [None] is the [TypeError] of reading
    [alias] on a key the catalog does not have. *)
Definition isIgnored (key : string) (ignores : list string) : option bool :=
  if includes ignores key then Some true
  else
    feature ← ecmaFeatures !! key;
    Some (existsb (fun alias => includes ignores alias) (Feature.alias feature)).

(** The first lines of [parseOptions]: the variables [version] and
    [ignores] after the [if] chain on [typeof options]. *)
Definition optionVersion (options : Options) : option string :=
  match options with
  | OptNumber n => VERSION_MAP_get n
  | OptString s => Some s
  | OptObject (VNumber n) _ => VERSION_MAP_get n
  | OptObject (VString s) _ => Some s
  | OptObject VUndefined _ => None
  | OptUndefined => None
  end.

Definition optionIgnores (options : Options) : list string :=
  match options with
  | OptObject _ (Some ignores) => ignores
  | _ => []
  end.

(** [range = semver.validRange(version ? `>=${version}` : defaultVersion)]. *)
Definition optionRange (options : Options) (defaultVersion : string)
  : option semver.Range :=
  let version := optionVersion options in
  semver.validRange
    (if truthy version then ">=" +:+ default "" version else defaultVersion).

(** [!semver.intersects(range, `<${threshold}`)]. *)
Definition reaches (range : option semver.Range) (threshold : string)
  : option bool :=
  negb <$> semver.intersects range ("<" +:+ threshold).

(** [feature.node != null && feature.node.sloppy != null &&
    !semver.intersects(range, `<${feature.node.sloppy}`)], and the same
    for [strict]: [&&] does not evaluate its right operand when the left
    one is false. *)
Definition reachesByMode (range : option semver.Range)
    (threshold : option string) : option bool :=
  match threshold with
  | Some v => reaches range v
  | None => Some false
  end.

(** The body of the [reduce] callback: the entry stored at [retv[key]]. *)
Definition resolveFeature (range : option semver.Range)
    (ignores : list string) (key : string) : option FeatureSupport :=
  feature ← ecmaFeatures !! key;
  ignored ← isIgnored key ignores;
  let name := Feature.name feature in
  let singular := default false (Feature.singular feature) in
  if (ignored : bool) then Some (mkFeatureSupport name singular true true)
  else
    match Feature.node feature with
    | Feature.NodeVersion v =>
        supported ← reaches range v;
        supportedInStrict ← reaches range v;
        Some (mkFeatureSupport name singular supported supportedInStrict)
    | Feature.NodeNull =>
        Some (mkFeatureSupport name singular false false)
    | Feature.NodeByMode sloppy strict =>
        supported ← reachesByMode range sloppy;
        supportedInStrict ← reachesByMode range strict;
        Some (mkFeatureSupport name singular supported supportedInStrict)
    end.

(** The [reduce] callback, [(retv, key) => { retv[key] = ...; return retv }];
    once an exception is thrown there is no accumulator any more. *)
Definition assignFeature (range : option semver.Range)
    (ignores : list string) (acc : option (gmap string FeatureSupport))
    (key : string) : option (gmap string FeatureSupport) :=
  retv ← acc;
  entry ← resolveFeature range ignores key;
  Some (<[key := entry]> retv).

(** [OPTIONS.reduce(callback, Object.create(null))]. *)
Definition resolveFeatures (range : option semver.Range)
    (ignores : list string) (keys : list string)
  : option (gmap string FeatureSupport) :=
  foldl (assignFeature range ignores) (Some ∅) keys.

(** [parseOptions(options, defaultVersion)]; [None] when an exception
    leaves the function (or, for a version or a threshold outside the
    fragment of semver modelled, when the model has no answer). *)
Definition parseOptions (options : Options) (defaultVersion : string)
  : option SupportInfo :=
  let version := optionVersion options in
  let ignores := optionIgnores options in
  let range := optionRange options defaultVersion in
  let version := if truthy version then default "" version else defaultVersion in
  features ← resolveFeatures range ignores OPTIONS;
  Some (mkSupportInfo version features).

(** Every threshold of the catalog is a full version. *)
Definition validThreshold (threshold : string) : Prop :=
  is_Some (semver.parseVersion threshold).

Definition validNode (n : Feature.Node) : Prop :=
  match n with
  | Feature.NodeVersion v => validThreshold v
  | Feature.NodeNull => True
  | Feature.NodeByMode sloppy strict =>
      from_option validThreshold True sloppy /\
      from_option validThreshold True strict
  end.

Definition validCatalog : Prop :=
  map_Forall (fun _ feature => validNode (Feature.node feature)) ecmaFeatures.

End Resolver.

(* --------------------------------------------------------------------- *)
(** ** Visitor merge (lib/rules/no-unsupported-ecma-features.js)          *)
(* --------------------------------------------------------------------- *)

(** [merge] changes function objects in place: it pushes onto the array
    [_fs] of a multiplexer that an earlier merge has made, and it stores
    the functions of [y] in [x] without copying them.  Functions are
    therefore modelled with their identity, in a store.  A function is
    either an ordinary handler ([_fs] is [undefined]) or a multiplexer,
    the function bound to the array [fs] that is also its property [_fs]. *)
Definition Fn : Type := positive.

Inductive FnObj : Type :=
| Handler
| Multiplexer (fs : list Fn).

(** [x[key]]: the property of [x] itself, or else the one that [x]
    inherits.  [proto] holds the properties inherited that are functions;
    for an object literal such as the [{}] that [create] starts from they
    are the methods of [Object.prototype]. *)
Definition getProp (proto x : gmap string Fn) (key : string) : option Fn :=
  match x !! key with
  | Some f => Some f
  | None => proto !! key
  end.

(** One turn of the loop of [merge], for the key [key] of [y] and its
    value [y[key]].  A visitor is an object whose own properties are
    functions, under selectors as keys; the store and [x] are what the
    turn changes.  An assignment [x[key] = ...] makes or changes a property
    of [x] itself.  (The name [__proto__], whose assignment would change
    the prototype instead, is no selector and is not a key here.) *)
Definition mergeStep (proto : gmap string Fn)
    (st : gmap Fn FnObj * gmap string Fn)
    (entry : string * Fn) : gmap Fn FnObj * gmap string Fn :=
  let '(store, x) := st in
  let '(key, yKey) := entry in
  match getProp proto x key ≫= (fun xKey => pair xKey <$> store !! xKey) with
  | Some (xKey, Handler) =>
      (* typeof x[key] === "function" && x[key]._fs == null *)
      let f := fresh (dom store) in
      (<[f := Multiplexer [xKey; yKey]]> store, <[key := f]> x)
  | Some (xKey, Multiplexer fs) =>
      (* x[key]._fs.push(y[key]) *)
      (<[xKey := Multiplexer (fs ++ [yKey])]> store, x)
  | None =>
      (* x[key] = y[key] *)
      (store, <[key := yKey]> x)
  end.

(** [merge(x, y)]: the loop over [Object.keys(y)].  The store after the
    call and [x], which is returned. *)
Definition merge (proto : gmap string Fn) (store : gmap Fn FnObj)
    (x y : gmap string Fn) : gmap Fn FnObj * gmap string Fn :=
  foldl (mergeStep proto) (store, x) (map_to_list y).

(** How a visit ends: every function called has returned, or one of them
    has not (it has thrown, or it runs for ever) and nothing is called
    after it.  [called] are the handlers called, in the order of the
    calls. *)
Inductive Visit : Type :=
| Completed (called : list Fn)
| Aborted (called : list Fn).

(** [for (const f of this) f(node)]: the calls in turn; what a call
    returns is not looked at, and a call that does not return ends the
    loop. *)
Fixpoint invokeEach (call : Fn -> option Visit) (fs : list Fn)
  : option Visit :=
  match fs with
  | [] => Some (Completed [])
  | f :: rest =>
      match call f with
      | None => None
      | Some (Aborted called) => Some (Aborted called)
      | Some (Completed called) =>
          match invokeEach call rest with
          | None => None
          | Some (Completed more) => Some (Completed (called ++ more))
          | Some (Aborted more) => Some (Aborted (called ++ more))
          end
      end
  end.

(** A visit: the call [f(node)].  Handlers are opaque to the rule: all
    that is modelled of a handler is whether its call at this node
    returns, [abrupt f] saying that it does not.  A multiplexer calls the
    members of its array in turn.  [fuel] bounds the depth of the calls;
    [None] says that the visit has not ended within it (or that something
    called is not a function). *)
Fixpoint invoke (fuel : nat) (store : gmap Fn FnObj) (abrupt : Fn -> bool)
    (f : Fn) : option Visit :=
  match fuel with
  | O => None
  | S fuel' =>
      match store !! f with
      | None => None
      | Some Handler => Some (if abrupt f then Aborted [f] else Completed [f])
      | Some (Multiplexer fs) => invokeEach (invoke fuel' store abrupt) fs
      end
  end.

(** Handlers called one after the other, up to the first that does not
    return. *)
Fixpoint run (abrupt : Fn -> bool) (handlers : list Fn) : Visit :=
  match handlers with
  | [] => Completed []
  | h :: rest =>
      if abrupt h then Aborted [h]
      else
        match run abrupt rest with
        | Completed more => Completed (h :: more)
        | Aborted more => Aborted (h :: more)
        end
  end.

(** [create] builds its visitor with
    [ES_RULE_MAP.reduce((v, ...) => merge(v, ...), {})] and one more
    [merge]: successive merges into one object. *)
Definition mergeAll (proto : gmap string Fn)
    (st : gmap Fn FnObj * gmap string Fn)
    (ys : list (gmap string Fn)) : gmap Fn FnObj * gmap string Fn :=
  foldl (fun st y => merge proto st.1 st.2 y) st ys.

(** The handlers behind [x[key]]: the function itself, or the members of
    its array. *)
Definition handlersAt (store : gmap Fn FnObj) (proto x : gmap string Fn)
    (key : string) : list Fn :=
  match getProp proto x key with
  | Some f =>
      match store !! f with
      | Some Handler => [f]
      | Some (Multiplexer fs) => fs
      | None => []
      end
  | None => []
  end.

(** Every function of the visitor is an ordinary handler, as in the
    visitor of a rule. *)
Definition ordinary (store : gmap Fn FnObj) (y : gmap string Fn) : Prop :=
  map_Forall (fun _ f => store !! f = Some Handler) y.

(** A visitor of handlers, or one as merges of such visitors leave it:
    each property is a handler or a multiplexer of handlers, and no
    multiplexer is stored under two keys. *)
Definition flat (store : gmap Fn FnObj) (x : gmap string Fn) : Prop :=
  (forall k f, x !! k = Some f ->
     store !! f = Some Handler \/
     exists fs, store !! f = Some (Multiplexer fs) /\
                Forall (fun g => store !! g = Some Handler) fs) /\
  (forall k1 k2 f, x !! k1 = Some f -> x !! k2 = Some f -> k1 <> k2 ->
     store !! f = Some Handler).

(** The methods of [Object.prototype], which [{}] inherits, with
    identities of their own, two handlers, and the visitors of two rules
    that each register one of the handlers for [Identifier] nodes. *)
Definition objectPrototype : gmap string Fn :=
  {[ "constructor" := 11%positive; "__defineGetter__" := 12%positive;
     "__defineSetter__" := 13%positive; "hasOwnProperty" := 14%positive;
     "__lookupGetter__" := 15%positive; "__lookupSetter__" := 16%positive;
     "isPrototypeOf" := 17%positive; "propertyIsEnumerable" := 18%positive;
     "toString" := 19%positive; "valueOf" := 20%positive;
     "toLocaleString" := 21%positive ]}.

Definition handlersStore : gmap Fn FnObj :=
  {[ 1%positive := Handler; 2%positive := Handler;
     11%positive := Handler; 12%positive := Handler; 13%positive := Handler;
     14%positive := Handler; 15%positive := Handler; 16%positive := Handler;
     17%positive := Handler; 18%positive := Handler; 19%positive := Handler;
     20%positive := Handler; 21%positive := Handler ]}.
Definition visitorF : gmap string Fn := {[ "Identifier" := 1%positive ]}.
Definition visitorG : gmap string Fn := {[ "Identifier" := 2%positive ]}.

(* --------------------------------------------------------------------- *)
(** ** Rule driver (lib/rules/no-unsupported-ecma-features.js, [create])  *)
(* --------------------------------------------------------------------- *)

(** An AST node, as the rule reads it: [range], [parent.type] and whether
    [parent.superClass === node]. *)
Record ASTNode : Type := mkNode {
  range : Z * Z;
  parentType : string;
  isSuperClass : bool
}.

(** The argument of [context.report]. *)
Record Report : Type := mkReport {
  reportNode : ASTNode;
  message : string;
  data : list (string * string)
}.

(** How a call ends: it returns, it throws a [TypeError], or it has not
    returned within the fuel given. *)
Inductive Completion (A : Type) : Type :=
| Returns (a : A)
| Throws
| Unfinished.
Arguments Returns {A} a.
Arguments Throws {A}.
Arguments Unfinished {A}.

(** [data[term]]. *)
Fixpoint dataGet (data : list (string * string)) (term : string)
  : option string :=
  match data with
  | [] => None
  | (k, v) :: rest => if String.eqb k term then Some v else dataGet rest term
  end.

(** ESLint's interpolation of a message, which is not part of this
    repository: every [{{term}}] of the text is replaced by [data[term]],
    and left as it is when [data] has no such term; what is put in is not
    read again.  [term] is [None] outside a placeholder and the text read
    so far inside one.  Placeholders are written without blanks, as this
    rule writes them. *)
Fixpoint interpolateFrom (data : list (string * string)) (term : option string)
    (text : string) : string :=
  match term, text with
  | None, EmptyString => EmptyString
  | None, String "{" (String "{" rest) => interpolateFrom data (Some "") rest
  | None, String c rest => String c (interpolateFrom data None rest)
  | Some name, EmptyString => "{{" +:+ name
  | Some name, String "}" (String "}" rest) =>
      default ("{{" +:+ name +:+ "}}") (dataGet data name)
      +:+ interpolateFrom data None rest
  | Some name, String c rest =>
      interpolateFrom data (Some (name +:+ String c "")) rest
  end.

Definition interpolate (text : string) (data : list (string * string))
  : string :=
  interpolateFrom data None text.

(** The message that a report shows. *)
Definition rendered (r : Report) : string := interpolate (message r) (data r).

Definition MESSAGE : string :=
  "{{feature}} {{be}} not supported yet on Node {{version}}.".

(** [isStrict(node)], with [scope] the value of [context.getScope()]. *)
Definition isStrict (fuel : nat) (scope : Scope) (node : ASTNode)
  : option bool :=
  isStrictScope <$> getInnermostScope fuel scope (range node).1.

(** [report(node, key)]: the reports handed to [context.report]. *)
Definition report (fuel : nat) (supportInfo : SupportInfo) (scope : Scope)
    (node : ASTNode) (key : string) : Completion (list Report) :=
  let version := version supportInfo in
  match features supportInfo !! key with
  | None => Throws
  | Some feature =>
      let be := if singular feature then "is" else "are" in
      if supported feature then Returns []
      else if negb (supportedInStrict feature) then
        Returns [mkReport node MESSAGE
                   [("feature", name feature); ("be", be); ("version", version)]]
      else
        match isStrict fuel scope node with
        | None => Unfinished
        | Some true => Returns []
        | Some false =>
            Returns [mkReport node MESSAGE
                       [("feature", name feature +:+ " in non-strict mode");
                        ("be", be); ("version", version)]]
        end
  end.

(** A match event of the reference tracer: [{node, path}]. *)
Record MatchEvent : Type := mkEvent {
  node : ASTNode;
  path : list string
}.

Definition SUBCLASSING_TEST_TARGETS : list string :=
  ["Array"; "RegExp"; "Function"; "Promise"; "Boolean"; "Number"; "String";
   "Map"; "Set"].

(** [CLASS_TYPE.test(type)]. *)
Definition CLASS_TYPE_test (type : string) : bool :=
  String.eqb type "ClassDeclaration" || String.eqb type "ClassExpression".

(** The text of an integer, as a template literal prints it. *)
Definition numberToString (n : Z) : string :=
  NilZero.string_of_int (Z.to_int n).

(** [`${path[0]}@${node.range[0]}`]; an empty path prints [undefined]. *)
Definition ignoreKeyOf (event : MatchEvent) : string :=
  hd "undefined" (path event) +:+ "@" +:+ numberToString (range (node event)).1.

(** A call of [report] in the pass at the end of the traversal, with the
    event it is made for: the call [report(node, key)] of the first
    [if], or the call [report(node, `extends${key}`)] of the second. *)
Inductive ReportCall : Type :=
| ReportFeature (event : MatchEvent)
| ReportSubclassing (event : MatchEvent).

Definition callKey (call : ReportCall) : string :=
  match call with
  | ReportFeature event => String.concat "." (path event)
  | ReportSubclassing event => "extends" +:+ String.concat "." (path event)
  end.

Definition callNode (call : ReportCall) : ASTNode :=
  match call with
  | ReportFeature event | ReportSubclassing event => node event
  end.

(** The event that a call is made for. *)
Definition callEvent (call : ReportCall) : MatchEvent :=
  match call with
  | ReportFeature event | ReportSubclassing event => event
  end.

(** The property names of [Object.prototype], which an object literal
    inherits. *)
Definition OBJECT_PROTOTYPE_KEYS : list string :=
  ["constructor"; "__defineGetter__"; "__defineSetter__"; "hasOwnProperty";
   "__lookupGetter__"; "__lookupSetter__"; "isPrototypeOf";
   "propertyIsEnumerable"; "toString"; "valueOf"; "__proto__";
   "toLocaleString"].

(** [key in features].  The catalog is a plain object: the operator finds
    its own keys and the names it inherits from [Object.prototype]. *)
Definition inFeatures (ecmaFeatures : gmap string Feature.t) (key : string)
  : bool :=
  bool_decide (is_Some (ecmaFeatures !! key)) ||
  includes OBJECT_PROTOTYPE_KEYS key.

Section Driver.

Variable ecmaFeatures : gmap string Feature.t.

(** The body of the loop of ["Program:exit"]: the set [ignore] and the
    calls of [report] made so far, before and after one event. *)
Definition exitStep (st : gset string * list ReportCall) (event : MatchEvent)
  : gset string * list ReportCall :=
  let '(ignore, calls) := st in
  let key := String.concat "." (path event) in
  let ignoreKey := ignoreKeyOf event in
  let '(ignore, calls) :=
    if inFeatures ecmaFeatures key &&
       negb (bool_decide (ignoreKey ∈ ignore))
    then ({[ignoreKey]} ∪ ignore, calls ++ [ReportFeature event])
    else (ignore, calls) in
  let calls :=
    if includes SUBCLASSING_TEST_TARGETS key &&
       CLASS_TYPE_test (parentType (node event)) &&
       isSuperClass (node event)
    then calls ++ [ReportSubclassing event]
    else calls in
  (ignore, calls).

(** The calls of [report] that the pass makes, in order, for the events
    that the tracer has yielded: the loop goes through
    [Array.from(...).reverse()]. *)
Definition exitCalls (events : list MatchEvent) : list ReportCall :=
  (foldl exitStep (∅, []) (rev events)).2.

(** The calls carried out: the reports of all of them, unless one does not
    return. *)
Fixpoint runReports (fuel : nat) (supportInfo : SupportInfo) (scope : Scope)
    (calls : list ReportCall) : Completion (list Report) :=
  match calls with
  | [] => Returns []
  | call :: rest =>
      match report fuel supportInfo scope (callNode call) (callKey call) with
      | Returns reports =>
          match runReports fuel supportInfo scope rest with
          | Returns more => Returns (reports ++ more)
          | other => other
          end
      | other => other
      end
  end.

(** The handler ["Program:exit"], with [scope] the value of
    [context.getScope()] and [events] what
    [tracer.iterateGlobalReferences(GLOBALS)] yields. *)
Definition programExit (fuel : nat) (supportInfo : SupportInfo) (scope : Scope)
    (events : list MatchEvent) : Completion (list Report) :=
  runReports fuel supportInfo scope (exitCalls events).

End Driver.

(** The events of the first [if] among the calls. *)
Definition featureEvents (calls : list ReportCall) : list MatchEvent :=
  omap (fun call => match call with
                    | ReportFeature event => Some event
                    | ReportSubclassing _ => None
                    end) calls.

(** The compound key of an event: the root name of its path and the start
    offset of its node. *)
Definition hasCompoundKey (root : string) (offset : Z) (event : MatchEvent)
  : Prop :=
  hd "undefined" (path event) = root /\ (range (node event)).1 = offset.

Global Instance hasCompoundKey_dec root offset event :
  Decision (hasCompoundKey root offset event).
Proof. unfold hasCompoundKey. apply _. Defined.

(** The invariant of the loop of ["Program:exit"]: the key of every event
    reported by the first [if] is in [ignore], and no two of them have the
    same key. *)
Definition exitInv (st : gset string * list ReportCall) : Prop :=
  (forall event, event ∈ featureEvents st.2 -> ignoreKeyOf event ∈ st.1) /\
  NoDup (ignoreKeyOf <$> featureEvents st.2).

(** A support table that marks one feature unsupported in non-strict code
    and supported in strict code, as at version 4.0.0. *)
Definition strictOnlyInfo : SupportInfo :=
  mkSupportInfo "4.0.0"
    {[ "const" := mkFeatureSupport "'const' declarations" false false true ]}.

(** Modelled from the spec: the catalog is not among the sources; the
    table of the scenario for generator functions, which has them
    unsupported at 4.0.0 under the name [generator functions]. *)
Definition generatorInfo : SupportInfo :=
  mkSupportInfo "4.0.0"
    {[ "generatorFunctions" :=
         mkFeatureSupport "generator functions" false false false ]}.

(** Modelled from the spec: the reference tracer
    ([lib/util/reference-tracer.js]) is not among the sources.  For a read
    of [Atomics.wait] it yields a match for the root, whose node is the
    identifier, and a match for the member, whose node is the member
    expression; both nodes start at the same offset. *)
Definition atomicsWaitEvents (identifier member : ASTNode) : list MatchEvent :=
  [ mkEvent identifier ["Atomics"]; mkEvent member ["Atomics"; "wait"] ].

(** Modelled from the spec: a catalog in which [Atomics] and
    [Atomics.wait] are features that 6.0.0 does not support (the names and
    the thresholds are sample values), and the table that [parseOptions]
    returns for it at 6.0.0. *)
Definition atomicsFeatures : gmap string Feature.t :=
  {[ "Atomics" :=
       Feature.mk ["runtime"] "'Atomics'" (Some true)
         (Feature.NodeVersion "8.10.0");
     "Atomics.wait" :=
       Feature.mk ["runtime"] "'Atomics.wait'" (Some true)
         (Feature.NodeVersion "8.10.0") ]}.

Definition atomicsInfo : SupportInfo :=
  mkSupportInfo "6.0.0"
    {[ "Atomics" := mkFeatureSupport "'Atomics'" true false false;
       "Atomics.wait" := mkFeatureSupport "'Atomics.wait'" true false false ]}.

(** Modelled from the spec: a catalog in which the global [Map] and the
    subclassing of [Map] are two features (the rule looks up
    [`extends${key}`] for every subclassing target; the names and the
    thresholds are sample values), the table that [parseOptions] returns
    for it at 0.10.0, and the event that the tracer yields for the super
    class of [class A extends Map {}]. *)
Definition mapFeatures : gmap string Feature.t :=
  {[ "Map" :=
       Feature.mk ["runtime"] "'Map'" (Some true)
         (Feature.NodeVersion "0.12.0");
     "extendsMap" :=
       Feature.mk ["syntax"] "Subclassing of 'Map'" (Some true)
         (Feature.NodeVersion "4.0.0") ]}.

Definition mapInfo : SupportInfo :=
  mkSupportInfo "0.10.0"
    {[ "Map" := mkFeatureSupport "'Map'" true false false;
       "extendsMap" :=
         mkFeatureSupport "Subclassing of 'Map'" true false false ]}.

Definition extendsMapEvent : MatchEvent :=
  mkEvent (mkNode (16, 19) "ClassDeclaration" true) ["Map"].

(** [feature.singular ? "is" : "are"]. *)
Definition beOf (f : FeatureSupport) : string :=
  if singular f then "is" else "are".

(** Modelled from the spec: the catalog [lib/util/ecma-features.js] is not
    among the sources; these are the three descriptors of the numeric
    example of the specification ([classes] with both thresholds at 6.0.0,
    [asyncAwait] at 7.6.0, [modules] with 8.5.0 for non-strict code and no
    strict threshold); the aliases are sample values. *)
Definition sampleFeatures : gmap string Feature.t :=
  {[ "classes" :=
       Feature.mk ["syntax"] "classes" None
         (Feature.NodeByMode (Some "6.0.0") (Some "6.0.0"));
     "asyncAwait" :=
       Feature.mk ["syntax"; "asyncFunctions"] "async functions" None
         (Feature.NodeVersion "7.6.0");
     "modules" :=
       Feature.mk ["syntax"] "import and export declarations" None
         (Feature.NodeByMode (Some "8.5.0") None) ]}.

(** The table of the sample catalog for the version 7.6.0. *)
Definition sampleInfo : SupportInfo :=
  mkSupportInfo "7.6.0"
    {[ "classes" := mkFeatureSupport "classes" false true true;
       "asyncAwait" := mkFeatureSupport "async functions" false true true;
       "modules" :=
         mkFeatureSupport "import and export declarations" false false false ]}.

(** Characters of a string, for the lemmas on the parser. *)
Fixpoint allChars (P : ascii -> bool) (s : string) : bool :=
  match s with
  | EmptyString => true
  | String c rest => P c && allChars P rest
  end.

Definition isDigit (c : ascii) : bool :=
  match semver.digitValue c with Some _ => true | None => false end.

Definition versionChar (c : ascii) : bool :=
  isDigit c || Ascii.eqb c ".".

(* --------------------------------------------------------------------- *)
(** ** Further definitions: scope locator                                *)
(* --------------------------------------------------------------------- *)

(** The first child scope whose range contains the location, as the
    [for...of] loop of [getInnermostScope] finds it. *)
Fixpoint firstContaining (cs : list Scope) (location : Z) : option Scope :=
  match cs with
  | [] => None
  | childScope :: rest =>
      if containsLocation childScope location then Some childScope
      else firstContaining rest location
  end.

(** The descent of [getInnermostScope] from [scope] ends: every scope it
    meets either has no child scope or has a child whose range contains the
    location (the first such child is the next scope met). *)
Fixpoint covered (location : Z) (scope : Scope) : bool :=
  match scope with
  | mkScope _ _ _ cs =>
      match cs with
      | [] => true
      | _ :: _ =>
          (fix first (l : list Scope) : bool :=
             match l with
             | [] => false
             | c :: rest =>
                 if containsLocation c location then covered location c
                 else first rest
             end) cs
      end
  end.

(** The number of scopes on the longest path from [scope] down. *)
Fixpoint depth (scope : Scope) : nat :=
  match scope with
  | mkScope _ _ _ cs =>
      S ((fix deepest (l : list Scope) : nat :=
            match l with
            | [] => O
            | c :: rest => Nat.max (depth c) (deepest rest)
            end) cs)
  end.

(** [inner] is [outer] or one of the scopes below it. *)
Inductive scopeWithin : Scope -> Scope -> Prop :=
| within_self scope : scopeWithin scope scope
| within_child inner child outer :
    In child (childScopes outer) -> scopeWithin inner child ->
    scopeWithin inner outer.

(* --------------------------------------------------------------------- *)
(** ** Further definitions: version resolver                             *)
(* --------------------------------------------------------------------- *)

(** The thresholds that [parseOptions] reads in a descriptor for
    non-strict and for strict code: the one version of a [node] that is a
    string, the fields of a [node] that is an object, none for [null]. *)
Definition sloppyThreshold (n : Feature.Node) : option string :=
  match n with
  | Feature.NodeVersion v => Some v
  | Feature.NodeNull => None
  | Feature.NodeByMode sloppy _ => sloppy
  end.

Definition strictThreshold (n : Feature.Node) : option string :=
  match n with
  | Feature.NodeVersion v => Some v
  | Feature.NodeNull => None
  | Feature.NodeByMode _ strict => strict
  end.

(** The version [v] is at or above the threshold; no threshold is never
    met. *)
Definition meets (v : semver.SemVer) (threshold : option string) : bool :=
  match threshold ≫= semver.parseVersion with
  | Some t => semver.gte v t
  | None => false
  end.

(** [getIgnoresEnum()]: the object [retv] is a map from property names to
    [true], and [Object.keys] lists its keys as [OPTIONS] lists those of
    the catalog.  [None] is the [TypeError] of reading [alias] on a key
    the catalog does not have. *)
Definition setAliases (retv : gmap string bool) (aliases : list string)
  : gmap string bool :=
  foldl (fun retv alias => <[alias := true]> retv) retv aliases.

Definition ignoresStep (ecmaFeatures : gmap string Feature.t)
    (acc : option (gmap string bool)) (key : string)
  : option (gmap string bool) :=
  retv ← acc;
  feature ← ecmaFeatures !! key;
  Some (<[key := true]> (setAliases retv (Feature.alias feature))).

Definition getIgnoresEnum (ecmaFeatures : gmap string Feature.t)
  : option (list string) :=
  retv ← foldl (ignoresStep ecmaFeatures) (Some ∅) (OPTIONS ecmaFeatures);
  Some (map_to_list retv).*1.

(** A numeric identifier of the pattern of [VERSION_SCHEMA],
    [0|[1-9]\d*]. *)
Definition numericIdentifier (s : string) : bool :=
  match s with
  | EmptyString => false
  | String "0" (String _ _) => false
  | _ => allChars isDigit s
  end.

(** The pattern that [VERSION_SCHEMA] asks of a version string: three
    numeric identifiers with a dot between them, and nothing before or
    after. *)
Definition VERSION_PATTERN_test (text : string) : bool :=
  match semver.splitOn "." text with
  | [a; b; c] =>
      numericIdentifier a && numericIdentifier b && numericIdentifier c
  | _ => false
  end.

(* --------------------------------------------------------------------- *)
(** ** Further definitions: rule driver                                  *)
(* --------------------------------------------------------------------- *)

(** The events of the second [if] among the calls. *)
Definition subclassingEvents (calls : list ReportCall) : list MatchEvent :=
  omap (fun call => match call with
                    | ReportFeature _ => None
                    | ReportSubclassing event => Some event
                    end) calls.

(** The condition of the second [if] of ["Program:exit"]. *)
Definition extendsTarget (event : MatchEvent) : bool :=
  includes SUBCLASSING_TEST_TARGETS (String.concat "." (path event)) &&
  CLASS_TYPE_test (parentType (node event)) &&
  isSuperClass (node event).

(** [key in features], for the key of an event. *)
Definition catalogued (ecmaFeatures : gmap string Feature.t)
    (event : MatchEvent) : Prop :=
  inFeatures ecmaFeatures (String.concat "." (path event)) = true.

(* ===================================================================== *)
(** * Part II: properties                                                 *)
(* ===================================================================== *)

Lemma scan_stuck cs location scope :
  Forall (fun c => containsLocation c location = false) cs ->
  scanChildScopes cs location scope = scope.
Proof.
  induction 1 as [|c rest Hc _ IH]; simpl; [reflexivity|].
  now rewrite Hc.
Qed.

(** One turn of the [while] loop on a scope that has children, none of
    which contains the location, leaves the loop variable as it was and
    the condition true: no amount of fuel leaves the loop. *)
Lemma stuck_scope_never_returns scope location :
  childScopes scope <> [] ->
  Forall (fun c => containsLocation c location = false) (childScopes scope) ->
  forall fuel, getInnermostScope fuel scope location = None.
Proof.
  intros Hne Hall fuel.
  induction fuel as [|fuel IH]; simpl; [reflexivity|].
  destruct (childScopes scope) as [|c cs] eqn:Hcs; [congruence|].
  rewrite <- Hcs, scan_stuck by (rewrite Hcs; exact Hall).
  exact IH.
Qed.

(** The scan either keeps the scope or moves to a child that contains the
    location. *)
Lemma scan_cases cs location scope :
  scanChildScopes cs location scope = scope \/
  (In (scanChildScopes cs location scope) cs /\
   containsLocation (scanChildScopes cs location scope) location = true).
Proof.
  induction cs as [|c rest IH]; simpl; [now left|].
  destruct (containsLocation c location) eqn:Hc.
  - right. split; [now left | exact Hc].
  - destruct IH as [IH | [IH1 IH2]]; [now left | right; split; [now right | exact IH2]].
Qed.

(** Partial correctness: when the loop is left, the scope returned has no
    child at all, and its range contains the location if the initial
    scope's range did. *)
Lemma getInnermostScope_returns_leaf fuel initialScope location scope :
  getInnermostScope fuel initialScope location = Some scope ->
  childScopes scope = [].
Proof.
  revert initialScope.
  induction fuel as [|fuel IH]; simpl; intros initialScope H; [discriminate|].
  destruct (childScopes initialScope) as [|c cs] eqn:Hcs.
  - now inversion H; subst.
  - now apply IH in H.
Qed.

Lemma getInnermostScope_contains fuel initialScope location scope :
  containsLocation initialScope location = true ->
  getInnermostScope fuel initialScope location = Some scope ->
  containsLocation scope location = true.
Proof.
  revert initialScope.
  induction fuel as [|fuel IH]; simpl; intros initialScope Hin H; [discriminate|].
  destruct (childScopes initialScope) as [|c cs] eqn:Hcs.
  - now inversion H; subst.
  - apply IH in H; [exact H|].
    destruct (scan_cases (c :: cs) location initialScope) as [-> | [_ Hc]];
      [exact Hin | exact Hc].
Qed.

Lemma getInnermostScope_partial fuel initialScope location scope :
  containsLocation initialScope location = true ->
  getInnermostScope fuel initialScope location = Some scope ->
  innermostAt location scope.
Proof.
  intros Hin H. split.
  - eapply getInnermostScope_contains; eauto.
  - erewrite getInnermostScope_returns_leaf by eauto. constructor.
Qed.

Lemma gapScope_wellFormed : wellFormed gapScope.
Proof.
  cbn. repeat split; try (cbn; lia); apply Forall_nil_2.
Qed.

Lemma gapScope_stuck :
  Forall (fun c => containsLocation c 7 = false) (childScopes gapScope).
Proof. repeat constructor. Qed.

(** C1 (code defect).  [gapScope] is a well-formed scope tree and offset 7
    lies inside the root's range; the root has a child scope but the
    child's range does not contain 7.  The claim says the function stops
    there and returns the root; the loop never ends instead: whatever the
    number of iterations allowed, no scope is returned. *)
Theorem getInnermostScope_loops_on_gap :
  wellFormed gapScope /\
  containsLocation gapScope 7 = true /\
  childScopes gapScope <> [] /\
  Forall (fun c => containsLocation c 7 = false) (childScopes gapScope) /\
  forall fuel, getInnermostScope fuel gapScope 7 = None.
Proof.
  split; [exact gapScope_wellFormed|].
  split; [reflexivity|].
  split; [discriminate|].
  split; [exact gapScope_stuck|].
  apply stuck_scope_never_returns; [discriminate | exact gapScope_stuck].
Qed.

(** C9 (code defect, the same one as C1).  In [nestedScope] offset 40 lies
    in the function at [10,50) and outside its inner function: that scope
    is the one the claim promises.  The loop descends into it and then
    spins: no scope is ever returned. *)
Theorem getInnermostScope_no_result_nested :
  wellFormed nestedScope /\
  containsLocation nestedScope 40 = true /\
  innermostAt 40 (mkScope 10 50 true [mkScope 20 30 true []]) /\
  forall fuel, getInnermostScope fuel nestedScope 40 = None.
Proof.
  split; [cbn; repeat split; try lia; repeat constructor; cbn; lia|].
  split; [reflexivity|].
  split; [split; [reflexivity | repeat constructor]|].
  intros [|fuel]; [reflexivity|].
  change (getInnermostScope fuel (mkScope 10 50 true [mkScope 20 30 true []]) 40
          = None).
  apply stuck_scope_never_returns; [discriminate | repeat constructor].
Qed.

(* --------------------------------------------------------------------- *)
(** ** The semver model                                                   *)
(* --------------------------------------------------------------------- *)

Lemma allChars_impl (P Q : ascii -> bool) s :
  (forall c, P c = true -> Q c = true) ->
  allChars P s = true -> allChars Q s = true.
Proof.
  intros HPQ. induction s as [|c rest IH]; simpl; [reflexivity|].
  intros [Hc Hrest]%andb_prop. now rewrite (HPQ c Hc), IH.
Qed.

Lemma digitsValue_chars s : forall acc n,
  semver.digitsValue acc s = Some n -> allChars isDigit s = true.
Proof.
  induction s as [|c rest IH]; simpl; intros acc n H; [reflexivity|].
  unfold isDigit at 1.
  destruct (semver.digitValue c) as [d|]; [|discriminate].
  simpl. eapply IH, H.
Qed.

Lemma parseNumeric_chars s n :
  semver.parseNumeric s = Some n -> allChars isDigit s = true.
Proof.
  unfold semver.parseNumeric. intros H.
  assert (Hd : exists m, semver.digitsValue 0 s = Some m).
  { destruct s as [|c [|c' rest]]; [discriminate|..].
    - destruct (semver.digitsValue 0 (String c "")) as [m|]; [eauto|].
      destruct c as [[] [] [] [] [] [] [] []]; discriminate.
    - destruct (semver.digitsValue 0 (String c (String c' rest))) as [m|];
        [eauto|].
      destruct c as [[] [] [] [] [] [] [] []]; discriminate. }
  destruct Hd as [m Hm]. eapply digitsValue_chars, Hm.
Qed.

Lemma splitOn_nonempty sep s : semver.splitOn sep s <> [].
Proof.
  destruct s as [|c rest]; simpl; [discriminate|].
  destruct (Ascii.eqb c sep); [discriminate|].
  destruct (semver.splitOn sep rest); discriminate.
Qed.

(** The characters of a string are those of its pieces and the separator. *)
Lemma splitOn_chars (P : ascii -> bool) sep s :
  P sep = true ->
  Forall (fun piece => allChars P piece = true) (semver.splitOn sep s) ->
  allChars P s = true.
Proof.
  intros Hsep. induction s as [|c rest IH]; simpl; [reflexivity|].
  destruct (Ascii.eqb_spec c sep) as [->|Hne].
  - intros Hall. inversion Hall; subst. rewrite Hsep. now apply IH.
  - destruct (semver.splitOn sep rest) as [|piece pieces] eqn:Hsplit.
    + now destruct (splitOn_nonempty sep rest).
    + intros Hall. inversion Hall as [|? ? Hhd Htl]; subst.
      simpl in Hhd. apply andb_prop in Hhd as [Hc Hpiece].
      rewrite Hc. apply IH. now constructor.
Qed.

Lemma parseVersion_chars s v :
  semver.parseVersion s = Some v -> allChars versionChar s = true.
Proof.
  unfold semver.parseVersion. intros H.
  destruct (semver.splitOn "." s) as [|a [|b [|c [|d rest]]]] eqn:Hsplit;
    try discriminate.
  destruct (semver.parseNumeric a) as [x|] eqn:Ha; [|discriminate].
  destruct (semver.parseNumeric b) as [y|] eqn:Hb; [|discriminate].
  destruct (semver.parseNumeric c) as [z|] eqn:Hc; [|discriminate].
  apply (splitOn_chars versionChar "."); [reflexivity|].
  rewrite Hsplit.
  assert (Hd : forall t n, semver.parseNumeric t = Some n ->
                           allChars versionChar t = true).
  { intros t n Ht. apply (allChars_impl isDigit); [|eapply parseNumeric_chars, Ht].
    intros ch Hch. unfold versionChar. now rewrite Hch. }
  repeat constructor; eauto.
Qed.

(** A string without the separator is its own single piece. *)
Lemma splitOn_single sep s :
  allChars (fun c => negb (Ascii.eqb c sep)) s = true ->
  semver.splitOn sep s = [s].
Proof.
  induction s as [|c rest IH]; simpl; [reflexivity|].
  intros [Hc Hrest]%andb_prop.
  apply negb_true_iff in Hc. rewrite Hc, IH by assumption. reflexivity.
Qed.

Lemma splitOr_single s :
  allChars (fun c => negb (Ascii.eqb c "|")) s = true ->
  semver.splitOr s = [s].
Proof.
  induction s as [|c rest IH]; simpl; [reflexivity|].
  intros [Hc Hrest]%andb_prop.
  apply negb_true_iff, Ascii.eqb_neq in Hc.
  rewrite IH by assumption.
  destruct c as [[] [] [] [] [] [] [] []]; try reflexivity.
  now destruct Hc.
Qed.

Lemma versionChar_plain c :
  versionChar c = true ->
  negb (Ascii.eqb c " ") = true /\ negb (Ascii.eqb c "|") = true /\
  negb (Ascii.eqb c "=") = true.
Proof.
  destruct c as [[] [] [] [] [] [] [] []]; vm_compute; intuition discriminate.
Qed.

Lemma allChars_version_plain s :
  allChars versionChar s = true ->
  allChars (fun c => negb (Ascii.eqb c " ")) s = true /\
  allChars (fun c => negb (Ascii.eqb c "|")) s = true.
Proof.
  intros H. split; (eapply allChars_impl; [|exact H]);
    intros c Hc; now apply versionChar_plain in Hc.
Qed.

(** A single comparator is a range of one set. *)
Lemma validRange_single s c :
  allChars (fun c => negb (Ascii.eqb c " ")) s = true ->
  allChars (fun c => negb (Ascii.eqb c "|")) s = true ->
  semver.nonEmpty s = true ->
  semver.parseComparator s = Some c ->
  semver.validRange s = Some [[c]].
Proof.
  intros Hsp Hor Hne Hc. unfold semver.validRange.
  rewrite splitOr_single by assumption. cbn [mapM].
  unfold semver.parseComparatorSet.
  rewrite splitOn_single by assumption.
  cbn [filter list_filter]. rewrite decide_True by assumption.
  cbn [filter list_filter mapM]. rewrite Hc. reflexivity.
Qed.

(** [validRange(`>=${version}`)] for a full version. *)
Lemma validRange_ge text v :
  semver.parseVersion text = Some v ->
  semver.validRange (">=" +:+ text) = Some [[semver.mkComparator semver.OpGe v]].
Proof.
  intros Hv. pose proof (parseVersion_chars _ _ Hv) as Hchars.
  apply allChars_version_plain in Hchars as [Hsp Hor].
  change (">=" +:+ text) with (String ">" (String "=" text)).
  apply validRange_single; simpl; try assumption; try reflexivity.
  now rewrite Hv.
Qed.

(** [validRange(`<${threshold}`)] for a full version. *)
Lemma validRange_lt text v :
  semver.parseVersion text = Some v ->
  semver.validRange ("<" +:+ text) = Some [[semver.mkComparator semver.OpLt v]].
Proof.
  intros Hv. pose proof (parseVersion_chars _ _ Hv) as Hchars.
  pose proof (allChars_version_plain _ Hchars) as [Hsp Hor].
  change ("<" +:+ text) with (String "<" text).
  apply validRange_single; simpl; try assumption; try reflexivity.
  destruct text as [|c rest]; [discriminate|].
  simpl in Hchars. apply andb_prop in Hchars as [Hc _].
  apply versionChar_plain in Hc as (_ & _ & Hc).
  destruct c as [[] [] [] [] [] [] [] []]; try discriminate Hc;
    cbn [semver.parseComparator]; now rewrite Hv.
Qed.

(** The order of versions, as a proposition. *)
Lemma semver_lt_spec a b :
  semver.lt a b = true <->
  (semver.major a < semver.major b \/
   semver.major a = semver.major b /\
   (semver.minor a < semver.minor b \/
    semver.minor a = semver.minor b /\ semver.patch a < semver.patch b))%N.
Proof.
  unfold semver.lt, semver.compare.
  destruct (N.compare_spec (semver.major a) (semver.major b));
    destruct (N.compare_spec (semver.minor a) (semver.minor b));
    destruct (N.compare_spec (semver.patch a) (semver.patch b));
    split; intros; try discriminate; try reflexivity; lia.
Qed.

Lemma semver_lt_trans a b c :
  semver.lt a b = true -> semver.lt b c = true -> semver.lt a c = true.
Proof. rewrite !semver_lt_spec. lia. Qed.

(** [>=v] meets [<t] exactly when [v] is below [t]. *)
Lemma rangeIntersects_ge_lt v t :
  semver.rangeIntersects [[semver.mkComparator semver.OpGe v]]
                         [[semver.mkComparator semver.OpLt t]]
  = semver.lt v t.
Proof.
  unfold semver.rangeIntersects, semver.comparatorIntersects; simpl.
  destruct (semver.lt v t), (semver.eq v t), (semver.gt v t); reflexivity.
Qed.

(** The bare version [v] meets [<t] exactly when [v] is below [t]. *)
Lemma rangeIntersects_eq_lt v t :
  semver.rangeIntersects [[semver.mkComparator semver.OpEq v]]
                         [[semver.mkComparator semver.OpLt t]]
  = semver.lt v t.
Proof.
  unfold semver.rangeIntersects, semver.comparatorIntersects, semver.test; simpl.
  destruct (semver.lt v t); reflexivity.
Qed.

(* --------------------------------------------------------------------- *)
(** ** Version resolver                                                   *)
(* --------------------------------------------------------------------- *)

Section ResolverFacts.

Variable ecmaFeatures : gmap string Feature.t.

Implicit Types (range : option semver.Range) (ignores : list string).
Implicit Types (key : string) (options : Options).

Lemma OPTIONS_elem key :
  key ∈ OPTIONS ecmaFeatures <-> is_Some (ecmaFeatures !! key).
Proof.
  unfold OPTIONS. rewrite list_elem_of_fmap. split.
  - intros [[k f] [-> H]]. apply elem_of_map_to_list in H. eauto.
  - intros [f H]. exists (key, f). split; [done|].
    by apply elem_of_map_to_list.
Qed.

Lemma assignFeature_thrown range ignores keys :
  foldl (assignFeature ecmaFeatures range ignores) None keys = None.
Proof. induction keys as [|k ks IH]; [done|]. exact IH. Qed.

(** What the [reduce] leaves in [retv]: the entry of every key it went
    through, and what was there before at the other keys. *)
Lemma reduce_lookup range ignores keys : forall acc tbl,
  foldl (assignFeature ecmaFeatures range ignores) (Some acc) keys = Some tbl ->
  forall key,
    tbl !! key =
    if decide (key ∈ keys) then resolveFeature ecmaFeatures range ignores key
    else acc !! key.
Proof.
  induction keys as [|k ks IH]; intros acc tbl H key.
  - inversion H; subst. rewrite decide_False; [done | apply not_elem_of_nil].
  - simpl in H.
    destruct (resolveFeature ecmaFeatures range ignores k) as [entry|] eqn:Hk;
      simpl in H; [|by rewrite assignFeature_thrown in H].
    rewrite (IH _ _ H key).
    destruct (decide (key ∈ ks)) as [Hin|Hnin].
    + rewrite decide_True; [done | by right].
    + destruct (decide (key = k)) as [->|Hne].
      * rewrite decide_True by left. by rewrite lookup_insert_eq.
      * rewrite decide_False by (intros [?|?]%elem_of_cons; done).
        by rewrite lookup_insert_ne.
Qed.

Lemma reduce_total range ignores keys : forall acc,
  Forall (fun key => is_Some (resolveFeature ecmaFeatures range ignores key)) keys ->
  is_Some (foldl (assignFeature ecmaFeatures range ignores) (Some acc) keys).
Proof.
  induction keys as [|k ks IH]; intros acc Hall; [by eexists|].
  inversion Hall as [|? ? [entry Hk] Hks]; subst.
  simpl. rewrite Hk. simpl. by apply IH.
Qed.

(** The table holds, at every key, the entry that the callback computes
    for it; it holds nothing at a key the catalog does not have. *)
Lemma parseOptions_lookup options defaultVersion info key :
  parseOptions ecmaFeatures options defaultVersion = Some info ->
  features info !! key =
  resolveFeature ecmaFeatures (optionRange options defaultVersion)
                 (optionIgnores options) key.
Proof.
  unfold parseOptions, resolveFeatures. intros H.
  destruct (foldl _ _ _) as [tbl|] eqn:Hfold; [|done].
  inversion H; subst; simpl.
  rewrite (reduce_lookup _ _ _ _ _ Hfold key), lookup_empty.
  destruct (decide (key ∈ OPTIONS ecmaFeatures)) as [|Hnin]; [done|].
  rewrite OPTIONS_elem, <- eq_None_not_Some in Hnin.
  unfold resolveFeature. by rewrite Hnin.
Qed.

Lemma parseOptions_version options defaultVersion info :
  parseOptions ecmaFeatures options defaultVersion = Some info ->
  version info =
  if truthy (optionVersion options) then default "" (optionVersion options)
  else defaultVersion.
Proof.
  unfold parseOptions. intros H.
  destruct (resolveFeatures _ _ _ _) as [tbl|]; [|done].
  by inversion H.
Qed.

Lemma reaches_valid r threshold :
  validThreshold threshold -> is_Some (reaches (Some r) threshold).
Proof.
  intros [t Ht]. unfold reaches, semver.intersects.
  rewrite (validRange_lt _ _ Ht). by eexists.
Qed.

Lemma isIgnored_catalogued key ignores feature :
  ecmaFeatures !! key = Some feature ->
  isIgnored ecmaFeatures key ignores =
  Some (includes ignores key ||
        existsb (fun alias => includes ignores alias) (Feature.alias feature)).
Proof.
  intros Hf. unfold isIgnored. rewrite Hf.
  by destruct (includes ignores key).
Qed.

(** With a range and a catalog of well-formed thresholds, the callback
    throws at no key of the catalog. *)
Lemma resolveFeature_total r ignores key feature :
  validCatalog ecmaFeatures ->
  ecmaFeatures !! key = Some feature ->
  is_Some (resolveFeature ecmaFeatures (Some r) ignores key).
Proof.
  intros Hcat Hf. pose proof (Hcat _ _ Hf) as Hnode.
  unfold resolveFeature. rewrite Hf. simpl.
  rewrite (isIgnored_catalogued _ _ _ Hf). simpl.
  destruct (_ || _); [by eexists|].
  cbv beta in Hnode. revert Hnode.
  destruct (Feature.node feature) as [v| |sloppy strict]; simpl; intros Hnode.
  - destruct (reaches_valid r v Hnode) as [b ->]. by eexists.
  - by eexists.
  - destruct Hnode as [Hs Ht].
    assert (Hmode : forall th, from_option validThreshold True th ->
                               is_Some (reachesByMode (Some r) th)).
    { intros [th|] Hth; simpl; [by apply reaches_valid | by eexists]. }
    destruct (Hmode _ Hs) as [b ->], (Hmode _ Ht) as [b' ->]. by eexists.
Qed.

Lemma parseOptions_total options defaultVersion :
  validCatalog ecmaFeatures ->
  is_Some (optionRange options defaultVersion) ->
  is_Some (parseOptions ecmaFeatures options defaultVersion).
Proof.
  intros Hcat [r Hr]. unfold parseOptions, resolveFeatures. rewrite Hr.
  destruct (reduce_total (Some r) (optionIgnores options)
              (OPTIONS ecmaFeatures) ∅) as [tbl Htbl].
  - apply Forall_forall. intros key [f Hf]%OPTIONS_elem.
    by eapply resolveFeature_total.
  - rewrite Htbl. by eexists.
Qed.

Lemma includes_spec ignores key : includes ignores key = true <-> key ∈ ignores.
Proof.
  unfold includes. rewrite existsb_exists. split.
  - intros [x [Hin ->%String.eqb_eq]]. by apply list_elem_of_In.
  - intros Hin. exists key. split; [by apply list_elem_of_In | apply String.eqb_refl].
Qed.

Lemma isIgnored_by_key_or_alias key ignores feature :
  ecmaFeatures !! key = Some feature ->
  key ∈ ignores \/
    (exists alias, alias ∈ Feature.alias feature /\ alias ∈ ignores) ->
  isIgnored ecmaFeatures key ignores = Some true.
Proof.
  intros Hf H. rewrite (isIgnored_catalogued _ _ _ Hf). f_equal.
  apply orb_true_iff. destruct H as [H | (alias & Ha & Hi)].
  - left. by apply includes_spec.
  - right. apply existsb_exists. exists alias. split.
    + by apply list_elem_of_In.
    + by apply includes_spec.
Qed.

(** A configured version that is a full version gives the range [>=version]. *)
Lemma optionRange_configured options defaultVersion text v :
  optionVersion options = Some text ->
  semver.parseVersion text = Some v ->
  optionRange options defaultVersion =
  Some [[semver.mkComparator semver.OpGe v]].
Proof.
  intros Ho Hv. unfold optionRange. rewrite Ho. simpl.
  destruct text as [|c rest]; [discriminate|].
  by apply validRange_ge.
Qed.

(** Every shorthand of [VERSION_MAP] stands for a full version. *)
Lemma VERSION_MAP_versions :
  Forall (fun entry => is_Some (semver.parseVersion entry.2)) VERSION_MAP.
Proof. repeat constructor; by eexists. Qed.

(** Without a configured version the range is the default version's. *)
Lemma optionRange_default options defaultVersion :
  optionVersion options = None ->
  optionRange options defaultVersion = semver.validRange defaultVersion.
Proof. intros Ho. unfold optionRange. by rewrite Ho. Qed.

(** C2.  A feature of the catalog whose key, or one of whose aliases, is in
    [ignores] has [supported = true] and [supportedInStrict = true] in the
    table that [parseOptions] returns, whatever the version configured:
    for every option and default version that give a range, and every
    catalog of well-formed thresholds, the table is returned and holds
    that entry. *)
Theorem ignored_feature_is_supported options defaultVersion key feature :
  validCatalog ecmaFeatures ->
  is_Some (optionRange options defaultVersion) ->
  ecmaFeatures !! key = Some feature ->
  key ∈ optionIgnores options \/
    (exists alias, alias ∈ Feature.alias feature /\
                   alias ∈ optionIgnores options) ->
  exists info entry,
    parseOptions ecmaFeatures options defaultVersion = Some info /\
    features info !! key = Some entry /\
    supported entry = true /\ supportedInStrict entry = true.
Proof.
  intros Hcat Hrange Hf Hign.
  destruct (parseOptions_total options defaultVersion Hcat Hrange) as [info Hinfo].
  exists info. rewrite (parseOptions_lookup _ _ _ key Hinfo).
  unfold resolveFeature. rewrite Hf. simpl.
  rewrite (isIgnored_by_key_or_alias _ _ _ Hf Hign). simpl.
  eexists. split; [exact Hinfo|]. repeat split; reflexivity.
Qed.

(** C3.  For a feature that is not ignored and whose thresholds are split
    by mode, a mode without a threshold has its field [false] in the table
    that [parseOptions] returns, whatever the range; no exception is
    raised for it. *)
Theorem absent_threshold_is_unsupported options defaultVersion key feature
    sloppy strict :
  validCatalog ecmaFeatures ->
  is_Some (optionRange options defaultVersion) ->
  ecmaFeatures !! key = Some feature ->
  Feature.node feature = Feature.NodeByMode sloppy strict ->
  isIgnored ecmaFeatures key (optionIgnores options) = Some false ->
  exists info entry,
    parseOptions ecmaFeatures options defaultVersion = Some info /\
    features info !! key = Some entry /\
    (sloppy = None -> supported entry = false) /\
    (strict = None -> supportedInStrict entry = false).
Proof.
  intros Hcat Hrange Hf Hnode Hign.
  destruct (parseOptions_total options defaultVersion Hcat Hrange) as [info Hinfo].
  exists info. rewrite (parseOptions_lookup _ _ _ key Hinfo).
  destruct Hrange as [r Hr]. rewrite Hr.
  destruct (resolveFeature_total r (optionIgnores options) key feature Hcat Hf)
    as [entry Hentry].
  exists entry. split; [exact Hinfo|]. split; [exact Hentry|].
  unfold resolveFeature in Hentry. rewrite Hf in Hentry. simpl in Hentry.
  rewrite Hign, Hnode in Hentry. simpl in Hentry.
  split; intros ->; simpl in Hentry.
  - destruct (reachesByMode (Some r) strict); inversion Hentry; reflexivity.
  - destruct (reachesByMode (Some r) sloppy); inversion Hentry; reflexivity.
Qed.

(** The entry of a feature with one threshold, under the range [>=v]:
    both fields say whether [v] is at or above the threshold. *)
Lemma resolveFeature_single_threshold v ignores key feature threshold t :
  ecmaFeatures !! key = Some feature ->
  Feature.node feature = Feature.NodeVersion threshold ->
  semver.parseVersion threshold = Some t ->
  isIgnored ecmaFeatures key ignores = Some false ->
  resolveFeature ecmaFeatures
    (Some [[semver.mkComparator semver.OpGe v]]) ignores key
  = Some (mkFeatureSupport (Feature.name feature)
            (default false (Feature.singular feature))
            (semver.gte v t) (semver.gte v t)).
Proof.
  intros Hf Hnode Ht Hign. unfold resolveFeature.
  rewrite Hf. simpl. rewrite Hign, Hnode. simpl.
  unfold reaches, semver.intersects.
  rewrite (validRange_lt _ _ Ht). cbn -[semver.rangeIntersects].
  rewrite rangeIntersects_ge_lt. reflexivity.
Qed.

(** Whether the callback throws at a key does not depend on the range,
    as long as there is one. *)
Lemma resolveFeature_defined r r' ignores key :
  is_Some (resolveFeature ecmaFeatures (Some r) ignores key) ->
  is_Some (resolveFeature ecmaFeatures (Some r') ignores key).
Proof.
  unfold resolveFeature.
  destruct (ecmaFeatures !! key) as [feature|]; simpl; [|done].
  destruct (isIgnored ecmaFeatures key ignores) as [[]|]; simpl; [done| |done].
  assert (Hreach : forall v, is_Some (reaches (Some r) v) ->
                             is_Some (reaches (Some r') v)).
  { intros v. unfold reaches, semver.intersects.
    destruct (semver.validRange ("<" +:+ v)); simpl; [by eexists|].
    by intros [? ?]. }
  assert (Hmode : forall th, is_Some (reachesByMode (Some r) th) ->
                             is_Some (reachesByMode (Some r') th)).
  { intros [v|]; simpl; [apply Hreach | done]. }
  destruct (Feature.node feature) as [v| |sloppy strict]; [|done|].
  - destruct (reaches (Some r) v) as [b|] eqn:Hb; [|by intros [? ?]].
    intros _. destruct (Hreach v) as [b' ->]; [by rewrite Hb|]. by eexists.
  - destruct (reachesByMode (Some r) sloppy) as [b|] eqn:Hb; [|by intros [? ?]].
    destruct (reachesByMode (Some r) strict) as [c|] eqn:Hc; [|by intros [? ?]].
    intros _.
    destruct (Hmode sloppy) as [b' ->]; [by rewrite Hb|].
    destruct (Hmode strict) as [c' ->]; [by rewrite Hc|]. by eexists.
Qed.

Lemma reduce_defined range ignores keys : forall acc tbl,
  foldl (assignFeature ecmaFeatures range ignores) (Some acc) keys = Some tbl ->
  Forall (fun key => is_Some (resolveFeature ecmaFeatures range ignores key)) keys.
Proof.
  induction keys as [|k ks IH]; intros acc tbl H; [constructor|].
  simpl in H.
  destruct (resolveFeature ecmaFeatures range ignores k) as [entry|] eqn:Hk;
    simpl in H; [|by rewrite assignFeature_thrown in H].
  constructor; [by rewrite Hk | by eapply IH].
Qed.

(** The table is there exactly when the callback gives an entry at every
    key. *)
Lemma parseOptions_defined options defaultVersion :
  is_Some (parseOptions ecmaFeatures options defaultVersion) <->
  Forall (fun key =>
            is_Some (resolveFeature ecmaFeatures
                       (optionRange options defaultVersion)
                       (optionIgnores options) key))
         (OPTIONS ecmaFeatures).
Proof.
  unfold parseOptions, resolveFeatures. split.
  - intros [info H].
    destruct (foldl _ _ _) as [tbl|] eqn:Hfold; [|done].
    by eapply reduce_defined.
  - intros Hall.
    destruct (reduce_total _ _ _ ∅ Hall) as [tbl ->]. by eexists.
Qed.

(** C8.  For a feature with one fixed threshold and two configured
    versions [V1 < V2] (the same [ignores]): if the table for [V1] says
    [supported = true], then [parseOptions] for [V2] returns a table that
    says [supported = true] too. *)
Theorem support_monotone_in_version options1 options2 defaultVersion
    key feature threshold t V1 V2 v1 v2 info1 entry1 :
  ecmaFeatures !! key = Some feature ->
  Feature.node feature = Feature.NodeVersion threshold ->
  semver.parseVersion threshold = Some t ->
  optionVersion options1 = Some V1 ->
  optionVersion options2 = Some V2 ->
  optionIgnores options1 = optionIgnores options2 ->
  semver.parseVersion V1 = Some v1 ->
  semver.parseVersion V2 = Some v2 ->
  semver.lt v1 v2 = true ->
  parseOptions ecmaFeatures options1 defaultVersion = Some info1 ->
  features info1 !! key = Some entry1 ->
  supported entry1 = true ->
  exists info2 entry2,
    parseOptions ecmaFeatures options2 defaultVersion = Some info2 /\
    features info2 !! key = Some entry2 /\
    supported entry2 = true.
Proof.
  intros Hf Hnode Ht Ho1 Ho2 Hign Hv1 Hv2 Hlt Hinfo1 Hentry1 Hsup1.
  pose proof (optionRange_configured _ defaultVersion _ _ Ho1 Hv1) as Hr1.
  pose proof (optionRange_configured _ defaultVersion _ _ Ho2 Hv2) as Hr2.
  assert (Hdef : is_Some (parseOptions ecmaFeatures options2 defaultVersion)).
  { apply parseOptions_defined. rewrite Hr2, <- Hign.
    assert (H1 : is_Some (parseOptions ecmaFeatures options1 defaultVersion))
      by (by rewrite Hinfo1).
    apply parseOptions_defined in H1. rewrite Hr1 in H1.
    eapply Forall_impl; [exact H1|]. intros k. apply resolveFeature_defined. }
  destruct Hdef as [info2 Hinfo2]. exists info2.
  rewrite (parseOptions_lookup _ _ _ key Hinfo2), Hr2, <- Hign.
  rewrite (parseOptions_lookup _ _ _ key Hinfo1), Hr1 in Hentry1.
  destruct (isIgnored ecmaFeatures key (optionIgnores options1))
    as [[]|] eqn:Hi.
  - unfold resolveFeature. rewrite Hf. simpl. rewrite Hi. simpl.
    eexists. split; [exact Hinfo2|]. split; reflexivity.
  - rewrite (resolveFeature_single_threshold _ _ _ _ _ _ Hf Hnode Ht Hi).
    rewrite (resolveFeature_single_threshold _ _ _ _ _ _ Hf Hnode Ht Hi)
      in Hentry1.
    inversion Hentry1; subst entry1; simpl in Hsup1.
    eexists. split; [exact Hinfo2|]. split; [reflexivity|]. simpl.
    unfold semver.gte in *. apply negb_true_iff in Hsup1.
    apply negb_true_iff. destruct (semver.lt v2 t) eqn:Hv2t; [|reflexivity].
    by rewrite (semver_lt_trans _ _ _ Hlt Hv2t) in Hsup1.
  - rewrite (isIgnored_catalogued _ _ _ Hf) in Hi. discriminate.
Qed.


End ResolverFacts.

Lemma sampleFeatures_valid : validCatalog sampleFeatures.
Proof.
  intros key feature Hf.
  assert (Hin : (key, feature) ∈ map_to_list sampleFeatures)
    by (by apply elem_of_map_to_list).
  set (l := map_to_list sampleFeatures) in Hin. vm_compute in l. subst l.
  repeat (apply elem_of_cons in Hin as [Hin|Hin];
          [inversion Hin; subst; simpl; try (split; try exact I); by eexists|]).
  by apply elem_of_nil in Hin.
Defined.

Lemma ignored_feature_is_supported_witness :
  exists info entry,
    parseOptions sampleFeatures
      (OptObject (VString "4.0.0") (Some ["generators"; "syntax"])) "6.0.0"
      = Some info /\
    features info !! "classes" = Some entry /\
    supported entry = true /\ supportedInStrict entry = true.
Proof.
  apply (ignored_feature_is_supported sampleFeatures
           (OptObject (VString "4.0.0") (Some ["generators"; "syntax"]))
           "6.0.0" "classes"
           (Feature.mk ["syntax"] "classes" None
              (Feature.NodeByMode (Some "6.0.0") (Some "6.0.0")))).
  - exact sampleFeatures_valid.
  - eexists. vm_compute. reflexivity.
  - vm_compute. reflexivity.
  - right. exists "syntax". split; [apply list_elem_of_here|].
    apply list_elem_of_further, list_elem_of_here.
Defined.

Lemma absent_threshold_is_unsupported_witness :
  exists info entry,
    parseOptions sampleFeatures (OptString "9.0.0") "6.0.0" = Some info /\
    features info !! "modules" = Some entry /\
    supportedInStrict entry = false.
Proof.
  destruct (absent_threshold_is_unsupported sampleFeatures
              (OptString "9.0.0") "6.0.0" "modules"
              (Feature.mk ["syntax"] "import and export declarations" None
                 (Feature.NodeByMode (Some "8.5.0") None))
              (Some "8.5.0") None)
    as (info & entry & Hinfo & Hentry & _ & Hstrict).
  - exact sampleFeatures_valid.
  - eexists. vm_compute. reflexivity.
  - vm_compute. reflexivity.
  - reflexivity.
  - vm_compute. reflexivity.
  - exists info, entry. repeat split; [exact Hinfo | exact Hentry | exact (Hstrict eq_refl)].
Defined.

Lemma support_monotone_in_version_witness :
  exists info2 entry2,
    parseOptions sampleFeatures (OptNumber 10%float) "6.0.0" = Some info2 /\
    features info2 !! "asyncAwait" = Some entry2 /\
    supported entry2 = true.
Proof.
  apply (support_monotone_in_version sampleFeatures
           (OptString "7.6.0") (OptNumber 10%float) "6.0.0" "asyncAwait"
           (Feature.mk ["syntax"; "asyncFunctions"] "async functions" None
              (Feature.NodeVersion "7.6.0"))
           "7.6.0" (semver.mkSemVer 7 6 0) "7.6.0" "10.0.0"
           (semver.mkSemVer 7 6 0) (semver.mkSemVer 10 0 0)
           sampleInfo
           (mkFeatureSupport "async functions" false true true));
    vm_compute; reflexivity.
Defined.


(* --------------------------------------------------------------------- *)
(** ** Visitor merge                                                      *)
(* --------------------------------------------------------------------- *)

Lemma fresh_not_stored (s : gmap Fn FnObj) g :
  is_Some (s !! g) -> g <> fresh (dom s).
Proof.
  intros Hg ->. apply elem_of_dom in Hg. by apply is_fresh in Hg.
Qed.

Lemma getProp_insert proto x k f k' :
  getProp proto (<[k := f]> x) k'
  = if decide (k' = k) then Some f else getProp proto x k'.
Proof.
  unfold getProp. destruct (decide (k' = k)) as [->|Hne].
  - by rewrite lookup_insert_eq.
  - by rewrite lookup_insert_ne.
Qed.

Lemma getProp_own proto x k f : x !! k = Some f -> getProp proto x k = Some f.
Proof. intros H. unfold getProp. by rewrite H. Qed.

(** What [x] shows under a key, on a flat visitor with ordinary functions
    inherited: a handler, or a multiplexer of handlers that it shows under
    no other key. *)
Lemma flat_getProp store proto x :
  flat store x -> ordinary store proto ->
  (forall k f, getProp proto x k = Some f ->
     store !! f = Some Handler \/
     exists fs, store !! f = Some (Multiplexer fs) /\
                Forall (fun g => store !! g = Some Handler) fs) /\
  (forall k1 k2 f, getProp proto x k1 = Some f -> getProp proto x k2 = Some f ->
     k1 <> k2 -> store !! f = Some Handler).
Proof.
  intros [Hshape Hinj] Hproto. unfold getProp. split.
  - intros k f. destruct (x !! k) as [f'|] eqn:Hk.
    + intros [= <-]. by eapply Hshape.
    + intros Hp. left. by eapply Hproto.
  - intros k1 k2 f.
    destruct (x !! k1) as [f1|] eqn:Hk1; [|intros Hp _ _; by eapply Hproto].
    destruct (x !! k2) as [f2|] eqn:Hk2; [|intros _ Hp _; by eapply Hproto].
    intros [= <-] [= ->] Hne. by eapply (Hinj k1 k2).
Qed.

(** One turn of the loop on a flat visitor, for an ordinary handler of
    [y]: the visitor stays flat, the handler is added after those of the
    key, the other keys keep theirs, and handlers stay handlers. *)
Lemma mergeStep_flat proto store x k fy :
  flat store x -> ordinary store proto -> store !! fy = Some Handler ->
  flat (mergeStep proto (store, x) (k, fy)).1
       (mergeStep proto (store, x) (k, fy)).2 /\
  handlersAt (mergeStep proto (store, x) (k, fy)).1 proto
             (mergeStep proto (store, x) (k, fy)).2 k
    = handlersAt store proto x k ++ [fy] /\
  (forall k', k' <> k ->
     handlersAt (mergeStep proto (store, x) (k, fy)).1 proto
                (mergeStep proto (store, x) (k, fy)).2 k'
     = handlersAt store proto x k') /\
  (forall g, store !! g = Some Handler ->
             (mergeStep proto (store, x) (k, fy)).1 !! g = Some Handler).
Proof.
  intros Hflat Hproto Hfy.
  destruct (flat_getProp _ _ _ Hflat Hproto) as [Hshown Hshown1].
  destruct Hflat as [Hshape Hinj].
  unfold mergeStep.
  destruct (getProp proto x k) as [f|] eqn:Hxk; simpl.
  - destruct (Hshown k f Hxk) as [Hf | (fs & Hf & Hfs)]; rewrite Hf; simpl.
    + (* a new multiplexer *)
      set (new := fresh (dom store)).
      assert (Hnew : forall g o, store !! g = Some o -> g <> new).
      { intros g o Hg. apply fresh_not_stored. by rewrite Hg. }
      assert (Hkeep : forall g o, store !! g = Some o ->
                <[new := Multiplexer [f; fy]]> store !! g = Some o).
      { intros g o Hg. rewrite lookup_insert_ne; [done|].
        intros <-. by eapply Hnew. }
      assert (Hx_new : forall k' f', getProp proto x k' = Some f' -> f' <> new).
      { intros k' f' Hk'.
        destruct (Hshown k' f' Hk') as [H | (fs & H & _)]; by eapply Hnew. }
      split; [split|split; [|split]].
      * intros k' f'. destruct (decide (k' = k)) as [->|Hne].
        -- rewrite lookup_insert_eq. intros [= <-]. right.
           exists [f; fy]. rewrite lookup_insert_eq. split; [done|].
           repeat constructor; by apply Hkeep.
        -- rewrite lookup_insert_ne by done. intros Hk'.
           destruct (Hshape k' f' Hk') as [H | (fs & H & Hfs)].
           ++ left. by apply Hkeep.
           ++ right. exists fs. split; [by apply Hkeep|].
              eapply Forall_impl; [exact Hfs|]. intros g Hg. by apply Hkeep.
      * intros k1 k2 f'.
        destruct (decide (k1 = k)) as [->|Hne1];
          destruct (decide (k2 = k)) as [->|Hne2]; try done.
        -- rewrite lookup_insert_eq, lookup_insert_ne by done.
           intros Heq Hk2 _. exfalso.
           apply (Hx_new k2 f' (getProp_own proto _ _ _ Hk2)). congruence.
        -- rewrite lookup_insert_eq, lookup_insert_ne by done.
           intros Hk1 Heq _. exfalso.
           apply (Hx_new k1 f' (getProp_own proto _ _ _ Hk1)). congruence.
        -- rewrite !lookup_insert_ne by done. intros Hk1 Hk2 Hne.
           apply (Hkeep _ Handler). by apply (Hinj k1 k2).
      * unfold handlersAt. rewrite getProp_insert, decide_True by done.
        by rewrite lookup_insert_eq, Hxk, Hf.
      * intros k' Hne. unfold handlersAt.
        rewrite getProp_insert, decide_False by done.
        destruct (getProp proto x k') as [f'|] eqn:Hk'; [|done].
        rewrite lookup_insert_ne; [done|].
        intros Heq. by eapply (Hx_new k' f').
      * intros g Hg. by apply Hkeep.
    + (* push *)
      assert (Hkeep : forall g, store !! g = Some Handler ->
                <[f := Multiplexer (fs ++ [fy])]> store !! g = Some Handler).
      { intros g Hg. rewrite lookup_insert_ne; [done|]. congruence. }
      split; [split|split; [|split]].
      * intros k' f' Hk'. destruct (decide (f' = f)) as [->|Hne].
        -- right. exists (fs ++ [fy]). rewrite lookup_insert_eq.
           split; [done|]. apply Forall_app. split.
           ++ eapply Forall_impl; [exact Hfs|]. intros g Hg. by apply Hkeep.
           ++ repeat constructor. by apply Hkeep.
        -- rewrite lookup_insert_ne by done.
           destruct (Hshape k' f' Hk') as [H | (fs' & H & Hfs')]; [by left|].
           right. exists fs'. split; [done|].
           eapply Forall_impl; [exact Hfs'|]. intros g Hg.
           rewrite lookup_insert_ne; [done | congruence].
      * intros k1 k2 f' Hk1 Hk2 Hne. apply Hkeep. by apply (Hinj k1 k2).
      * unfold handlersAt. by rewrite Hxk, lookup_insert_eq, Hf.
      * intros k' Hne. unfold handlersAt.
        destruct (getProp proto x k') as [f'|] eqn:Hk'; [|done].
        rewrite lookup_insert_ne; [done|].
        intros Heq. subst f'.
        assert (store !! f = Some Handler) by (by apply (Hshown1 k k')).
        congruence.
      * exact Hkeep.
  - (* x[key] = y[key] *)
    assert (Hown : x !! k = None)
      by (unfold getProp in Hxk; by destruct (x !! k)).
    split; [split|split; [|split]].
    + intros k' f'. destruct (decide (k' = k)) as [->|Hne].
      * rewrite lookup_insert_eq. intros [= <-]. by left.
      * rewrite lookup_insert_ne by done. apply Hshape.
    + intros k1 k2 f'.
      destruct (decide (k1 = k)) as [->|Hne1];
        destruct (decide (k2 = k)) as [->|Hne2]; try done.
      * rewrite lookup_insert_eq. by intros [= <-].
      * rewrite lookup_insert_ne, lookup_insert_eq by done. by intros _ [= <-].
      * rewrite !lookup_insert_ne by done. apply Hinj.
    + unfold handlersAt. rewrite getProp_insert, decide_True by done.
      by rewrite Hxk, Hfy.
    + intros k' Hne. unfold handlersAt.
      by rewrite getProp_insert, decide_False.
    + done.
Qed.

Lemma merge_entries_flat proto entries : forall store x,
  NoDup entries.*1 ->
  flat store x -> ordinary store proto ->
  Forall (fun e => store !! e.2 = Some Handler) entries ->
  flat (foldl (mergeStep proto) (store, x) entries).1
       (foldl (mergeStep proto) (store, x) entries).2 /\
  (forall k,
     (forall f, (k, f) ∈ entries ->
        handlersAt (foldl (mergeStep proto) (store, x) entries).1 proto
                   (foldl (mergeStep proto) (store, x) entries).2 k
        = handlersAt store proto x k ++ [f]) /\
     (k ∉ entries.*1 ->
        handlersAt (foldl (mergeStep proto) (store, x) entries).1 proto
                   (foldl (mergeStep proto) (store, x) entries).2 k
        = handlersAt store proto x k)) /\
  (forall g, store !! g = Some Handler ->
             (foldl (mergeStep proto) (store, x) entries).1 !! g
             = Some Handler).
Proof.
  induction entries as [|[k0 f0] rest IH]; intros store x Hnd Hflat Hproto Hord.
  - simpl. split; [done|]. split; [|done].
    intros k. split; [|done]. intros f Hin. by apply elem_of_nil in Hin.
  - simpl in Hnd. apply NoDup_cons in Hnd as [Hk0 Hnd].
    apply Forall_cons in Hord as [Hf0 Hord]. simpl in Hf0.
    destruct (mergeStep_flat proto store x k0 f0 Hflat Hproto Hf0)
      as (Hflat1 & Hat & Hother & Hkeep).
    change (foldl (mergeStep proto) (store, x) ((k0, f0) :: rest))
      with (foldl (mergeStep proto) (mergeStep proto (store, x) (k0, f0)) rest).
    set (st1 := mergeStep proto (store, x) (k0, f0)) in *. clearbody st1.
    destruct st1 as [store1 x1]. simpl in Hflat1, Hat, Hother, Hkeep.
    destruct (IH store1 x1 Hnd Hflat1) as (Hflat2 & Hkeys & Hkeep2).
    { intros k f Hk. apply Hkeep. exact (Hproto k f Hk). }
    { eapply Forall_impl; [exact Hord|]. intros e He. by apply Hkeep. }
    split; [exact Hflat2|]. split.
    + intros k. destruct (Hkeys k) as [Hin Hout]. split.
      * intros f [Heq|Hrest]%elem_of_cons.
        -- inversion Heq; subst k f. rewrite Hout by done. exact Hat.
        -- rewrite (Hin f Hrest). rewrite Hother; [done|].
           intros ->. apply Hk0. apply list_elem_of_fmap. by exists (k0, f).
      * intros Hnot. rewrite Hout.
        -- apply Hother. intros ->. apply Hnot. left.
        -- intros Hrest. apply Hnot. by right.
    + intros g Hg. by apply Hkeep2, Hkeep.
Qed.

(** Merging an ordinary visitor into a flat one: the result is flat, and
    the handlers of each key are those it had, followed by [y]'s. *)
Lemma merge_flat proto store x y :
  flat store x -> ordinary store proto -> ordinary store y ->
  flat (merge proto store x y).1 (merge proto store x y).2 /\
  (forall k, handlersAt (merge proto store x y).1 proto
                        (merge proto store x y).2 k
             = handlersAt store proto x k ++ option_list (y !! k)) /\
  (forall g, store !! g = Some Handler ->
             (merge proto store x y).1 !! g = Some Handler).
Proof.
  intros Hflat Hproto Hord. unfold merge.
  destruct (merge_entries_flat proto (map_to_list y) store x)
    as (Hf & Hk & Hg).
  - apply NoDup_fst_map_to_list.
  - exact Hflat.
  - exact Hproto.
  - apply Forall_forall. intros [k f] Hin. apply elem_of_map_to_list in Hin.
    exact (Hord k f Hin).
  - split; [exact Hf|]. split; [|exact Hg].
    intros k. destruct (Hk k) as [Hin Hout].
    destruct (y !! k) as [f|] eqn:Hyk; simpl.
    + apply Hin. by apply elem_of_map_to_list.
    + rewrite Hout, app_nil_r; [done|].
      intros [[k' f] [-> Hin']]%list_elem_of_fmap.
      apply elem_of_map_to_list in Hin'. simpl in Hyk. congruence.
Qed.

(** The calls of a loop over handlers. *)
Lemma invokeEach_handlers store abrupt fs :
  Forall (fun g => store !! g = Some Handler) fs ->
  invokeEach (invoke 1 store abrupt) fs = Some (run abrupt fs).
Proof.
  induction 1 as [|g fs Hg _ IH]; [done|].
  cbn [invokeEach run]. rewrite IH. cbn [invoke]. rewrite Hg.
  destruct (abrupt g); [done|]. by destruct (run abrupt fs).
Qed.

(** When every handler returns, all are called. *)
Lemma run_completed abrupt handlers :
  (forall h, h ∈ handlers -> abrupt h = false) ->
  run abrupt handlers = Completed handlers.
Proof.
  induction handlers as [|h rest IH]; intros Hall; [done|]. simpl.
  rewrite (Hall h) by apply list_elem_of_here.
  rewrite IH; [done|]. intros g Hg. by apply Hall, list_elem_of_further.
Qed.

(** The first handler that does not return is the last one called. *)
Lemma run_aborted abrupt before h after :
  (forall g, g ∈ before -> abrupt g = false) -> abrupt h = true ->
  run abrupt (before ++ h :: after) = Aborted (before ++ [h]).
Proof.
  intros Hall Hh. induction before as [|g before IH]; simpl.
  - by rewrite Hh.
  - rewrite (Hall g) by apply list_elem_of_here.
    rewrite IH; [done|]. intros g' Hg'. by apply Hall, list_elem_of_further.
Qed.

(** A visit of the function that a flat visitor shows under a key calls
    its handlers in order, up to the first that does not return. *)
Lemma flat_invoke store proto x abrupt k f :
  flat store x -> ordinary store proto -> getProp proto x k = Some f ->
  invoke 2 store abrupt f = Some (run abrupt (handlersAt store proto x k)).
Proof.
  intros Hflat Hproto Hk.
  destruct (flat_getProp _ _ _ Hflat Hproto) as [Hshown _].
  unfold handlersAt. rewrite Hk.
  destruct (Hshown k f Hk) as [Hf | (fs & Hf & Hfs)];
    cbn [invoke]; rewrite Hf; [simpl; by destruct (abrupt f)|].
  by apply invokeEach_handlers.
Qed.

(** Successive merges of ordinary visitors, as [create] makes them: the
    handlers behind a key are those it had, followed by the handlers that
    the visitors register for the key, in the order of the merges. *)
Theorem mergeAll_registration_order proto ys : forall st key,
  flat st.1 st.2 -> ordinary st.1 proto ->
  Forall (ordinary st.1) ys ->
  flat (mergeAll proto st ys).1 (mergeAll proto st ys).2 /\
  ordinary (mergeAll proto st ys).1 proto /\
  handlersAt (mergeAll proto st ys).1 proto (mergeAll proto st ys).2 key
  = handlersAt st.1 proto st.2 key ++ omap (fun y => y !! key) ys.
Proof.
  induction ys as [|y ys IH]; intros st key Hflat Hproto Hord.
  - simpl. by rewrite app_nil_r.
  - apply Forall_cons in Hord as [Hy Hord].
    destruct (merge_flat proto st.1 st.2 y Hflat Hproto Hy)
      as (Hflat1 & Hat & Hkeep).
    change (mergeAll proto st (y :: ys))
      with (mergeAll proto (merge proto st.1 st.2 y) ys).
    destruct (IH (merge proto st.1 st.2 y) key Hflat1) as (Hf & Hp & Hh).
    { intros k f Hk. apply Hkeep. exact (Hproto k f Hk). }
    { eapply Forall_impl; [exact Hord|]. intros y' Hy' k f Hk.
      apply Hkeep. exact (Hy' k f Hk). }
    split; [exact Hf|]. split; [exact Hp|].
    rewrite Hh, Hat, <- app_assoc. f_equal.
    simpl. destruct (y !! key); reflexivity.
Qed.

Lemma elem_of_keys {A} (retv : gmap string A) x :
  x ∈ (map_to_list retv).*1 <-> is_Some (retv !! x).
Proof.
  rewrite list_elem_of_fmap. split.
  - intros [[k b] [-> Hin]]. apply elem_of_map_to_list in Hin. by eexists.
  - intros [b Hb]. exists (x, b). split; [done|]. by apply elem_of_map_to_list.
Qed.

(** One turn of the loop of [merge], seen from outside: [x] changes at
    the key of the turn only and has the key afterwards; a key that [x]
    did not have gets [y]'s function and the store stays as it is; a
    handler stays a handler, and the array of a multiplexer keeps its
    members, with at most [y]'s function added at the end. *)
Local Ltac nothing_pushed :=
  exists []; rewrite app_nil_r; split; [done | by intros ? ?%elem_of_nil].

Lemma mergeStep_frame proto store x k fy :
  (forall k', k' <> k ->
     (mergeStep proto (store, x) (k, fy)).2 !! k' = x !! k') /\
  (ordinary store proto ->
     is_Some ((mergeStep proto (store, x) (k, fy)).2 !! k)) /\
  (getProp proto x k = None ->
     mergeStep proto (store, x) (k, fy) = (store, <[k := fy]> x)) /\
  (forall g, store !! g = Some Handler ->
     (mergeStep proto (store, x) (k, fy)).1 !! g = Some Handler) /\
  (forall g fs, store !! g = Some (Multiplexer fs) ->
     exists more,
       (mergeStep proto (store, x) (k, fy)).1 !! g
       = Some (Multiplexer (fs ++ more)) /\
       more ⊆ [fy]).
Proof.
  unfold mergeStep.
  destruct (getProp proto x k) as [xKey|] eqn:Hxk; simpl.
  - destruct (store !! xKey) as [[|fs]|] eqn:Hs; simpl.
    + set (new := fresh (dom store)).
      assert (Hnew : forall g o, store !! g = Some o -> g <> new).
      { intros g o Hg. apply fresh_not_stored. by rewrite Hg. }
      split; [|split; [|split; [|split]]].
      * intros k' Hne. by rewrite lookup_insert_ne.
      * intros _. rewrite lookup_insert_eq. by eexists.
      * done.
      * intros g Hg. rewrite lookup_insert_ne; [done|].
        intros <-. by eapply Hnew.
      * intros g fs Hg. rewrite lookup_insert_ne; [nothing_pushed|].
        intros <-. by eapply Hnew.
    + split; [|split; [|split; [|split]]].
      * done.
      * intros Hproto. unfold getProp in Hxk.
        destruct (x !! k) as [f|] eqn:Hown; [by eexists|].
        rewrite (Hproto k xKey Hxk) in Hs. discriminate.
      * done.
      * intros g Hg. rewrite lookup_insert_ne; [done | congruence].
      * intros g fs' Hg. destruct (decide (g = xKey)) as [->|Hne].
        -- rewrite lookup_insert_eq. exists [fy].
           rewrite Hs in Hg. inversion Hg; subst fs'. done.
        -- rewrite lookup_insert_ne by done. nothing_pushed.
    + split; [|split; [|split; [|split]]].
      * intros k' Hne. by rewrite lookup_insert_ne.
      * intros _. rewrite lookup_insert_eq. by eexists.
      * done.
      * done.
      * intros g fs Hg. nothing_pushed.
  - split; [|split; [|split; [|split]]].
    + intros k' Hne. by rewrite lookup_insert_ne.
    + intros _. rewrite lookup_insert_eq. by eexists.
    + done.
    + done.
    + intros g fs Hg. nothing_pushed.
Qed.

Lemma merge_entries_frame proto entries : forall store x,
  NoDup entries.*1 ->
  (forall k, k ∉ entries.*1 ->
     (foldl (mergeStep proto) (store, x) entries).2 !! k = x !! k) /\
  (ordinary store proto ->
   forall k, k ∈ entries.*1 ->
     is_Some ((foldl (mergeStep proto) (store, x) entries).2 !! k)) /\
  ((forall k, k ∈ entries.*1 -> getProp proto x k = None) ->
     (foldl (mergeStep proto) (store, x) entries).1 = store /\
     forall k f, (k, f) ∈ entries ->
       (foldl (mergeStep proto) (store, x) entries).2 !! k = Some f) /\
  (forall g, store !! g = Some Handler ->
     (foldl (mergeStep proto) (store, x) entries).1 !! g = Some Handler) /\
  (forall g fs, store !! g = Some (Multiplexer fs) ->
     exists more,
       (foldl (mergeStep proto) (store, x) entries).1 !! g
       = Some (Multiplexer (fs ++ more)) /\
       more ⊆ entries.*2).
Proof.
  induction entries as [|[k0 f0] rest IH]; intros store x Hnd.
  - simpl. split; [done|]. split; [|split; [|split]].
    + intros _ k Hk. by apply elem_of_nil in Hk.
    + intros _. split; [done|]. intros k f Hk. by apply elem_of_nil in Hk.
    + done.
    + intros g fs Hg. nothing_pushed.
  - simpl in Hnd. apply NoDup_cons in Hnd as [Hk0 Hnd].
    destruct (mergeStep_frame proto store x k0 f0)
      as (Hother & Hkey & Hnew & Hkeep & Hmul).
    change (foldl (mergeStep proto) (store, x) ((k0, f0) :: rest))
      with (foldl (mergeStep proto)
              (mergeStep proto (store, x) (k0, f0)) rest).
    set (st1 := mergeStep proto (store, x) (k0, f0)) in *. clearbody st1.
    destruct st1 as [store1 x1]. simpl in Hother, Hkey, Hkeep, Hmul.
    destruct (IH store1 x1 Hnd) as (Hout & Hin & Hdisj & Hkeep2 & Hmul2).
    split; [|split; [|split; [|split]]].
    + intros k Hk. rewrite Hout.
      * apply Hother. intros ->. apply Hk. simpl. left.
      * intros Hr. apply Hk. simpl. by right.
    + intros Hproto k [->|Hk]%elem_of_cons.
      * rewrite Hout by done. by apply Hkey.
      * apply Hin; [|done]. intros k' f Hk'. apply Hkeep.
        exact (Hproto k' f Hk').
    + intros Hfree.
      assert (Hst : (store1, x1) = (store, <[k0 := f0]> x)).
      { apply Hnew. apply Hfree. simpl. left. }
      inversion Hst; subst store1 x1. clear Hst.
      destruct Hdisj as [Hstore Hlook].
      { intros k Hk. rewrite getProp_insert, decide_False.
        - apply Hfree. simpl. by right.
        - intros ->. done. }
      split; [done|].
      intros k f [Heq|Hr]%elem_of_cons.
      * inversion Heq; subst k f. rewrite Hout by done.
        by rewrite lookup_insert_eq.
      * by apply Hlook.
    + intros g Hg. by apply Hkeep2, Hkeep.
    + intros g fs Hg.
      destruct (Hmul g fs Hg) as (more1 & Hg1 & Hsub1).
      destruct (Hmul2 g _ Hg1) as (more2 & Hg2 & Hsub2).
      exists (more1 ++ more2). rewrite app_assoc. split; [done|].
      intros h [Hh|Hh]%elem_of_app.
      * apply Hsub1 in Hh. apply list_elem_of_singleton in Hh as ->.
        simpl. left.
      * simpl. right. by apply Hsub2.
Qed.

(** X15.  [merge(x, y)] gives [x] the keys of [y] and takes none away: the
    keys that [x] has of its own afterwards are those it had and those of
    [y], and what [x] holds under a key that [y] does not have is the
    function it held.  The functions that [x] inherits are ordinary ones,
    as the methods of [Object.prototype] are. *)
Theorem merge_keys proto store x y :
  ordinary store proto ->
  dom (merge proto store x y).2 = dom x ∪ dom y /\
  forall key, y !! key = None -> (merge proto store x y).2 !! key = x !! key.
Proof.
  intros Hproto. unfold merge.
  destruct (merge_entries_frame proto (map_to_list y) store x
              (NoDup_fst_map_to_list y)) as (Hout & Hin & _).
  specialize (Hin Hproto).
  pose proof (elem_of_keys y) as Hkeys.
  split.
  - apply set_eq. intros k. rewrite elem_of_union, !elem_of_dom.
    destruct (y !! k) as [f|] eqn:Hyk.
    + split; [by right; eexists|]. intros _. apply Hin, Hkeys. by eexists.
    + rewrite Hout; [|rewrite Hkeys, Hyk; by intros [? ?]].
      split; [by left|]. by intros [H|[? ?]].
  - intros k Hyk. apply Hout. rewrite Hkeys, Hyk. by intros [? ?].
Qed.

Lemma handlersStore_prototype : ordinary handlersStore objectPrototype.
Proof.
  intros key f Hf.
  assert (Hin : (key, f) ∈ map_to_list objectPrototype)
    by (by apply elem_of_map_to_list).
  set (l := map_to_list objectPrototype) in Hin. vm_compute in l. subst l.
  repeat (apply elem_of_cons in Hin as [Hin|Hin];
          [inversion Hin; subst; vm_compute; reflexivity|]).
  by apply elem_of_nil in Hin.
Defined.

Lemma merge_keys_witness :
  dom (merge objectPrototype handlersStore visitorF visitorG).2
  = dom visitorF ∪ dom visitorG /\
  forall key,
    visitorG !! key = None ->
    (merge objectPrototype handlersStore visitorF visitorG).2 !! key
    = visitorF !! key.
Proof.
  apply (merge_keys objectPrototype handlersStore visitorF visitorG).
  exact handlersStore_prototype.
Defined.

(** X16.  Merging a visitor under whose keys [x] shows nothing (no
    property of its own and no function inherited) is the union of the
    two: no multiplexer is made and no function object changes.  (Under a
    key such as [toString], where [{}] inherits a function, [merge] wraps
    that function and the one of [y] in a multiplexer instead.) *)
Theorem merge_disjoint_keys proto store x y :
  (forall key, is_Some (y !! key) -> getProp proto x key = None) ->
  merge proto store x y = (store, y ∪ x).
Proof.
  intros Hdisj. unfold merge.
  destruct (merge_entries_frame proto (map_to_list y) store x
              (NoDup_fst_map_to_list y)) as (Hout & _ & Hfree & _).
  pose proof (elem_of_keys y) as Hkeys.
  destruct Hfree as [Hstore Hlook].
  { intros k Hk. by apply Hdisj, Hkeys. }
  destruct (foldl (mergeStep proto) (store, x) (map_to_list y))
    as [store' x'] eqn:Hfold.
  simpl in *. subst store'. f_equal. apply map_eq. intros k.
  destruct (y !! k) as [f|] eqn:Hyk.
  - rewrite (lookup_union_Some_l _ _ _ _ Hyk).
    apply Hlook. by apply elem_of_map_to_list.
  - rewrite lookup_union_r by done. apply Hout.
    rewrite Hkeys, Hyk. by intros [? ?].
Qed.

(** X17.  [merge] takes nothing back: an ordinary handler is an ordinary handler
    afterwards, and the array of a multiplexer made by an earlier merge
    keeps its members in their order, with functions of [y] added at the
    end at most. *)
Theorem merge_store_grows proto store x y :
  (forall g, store !! g = Some Handler ->
     (merge proto store x y).1 !! g = Some Handler) /\
  (forall g fs, store !! g = Some (Multiplexer fs) ->
     exists more,
       (merge proto store x y).1 !! g = Some (Multiplexer (fs ++ more)) /\
       forall f, f ∈ more -> exists key, y !! key = Some f).
Proof.
  unfold merge.
  destruct (merge_entries_frame proto (map_to_list y) store x
              (NoDup_fst_map_to_list y)) as (_ & _ & _ & Hkeep & Hmul).
  split; [exact Hkeep|].
  intros g fs Hg. destruct (Hmul g fs Hg) as (more & Hmore & Hsub).
  exists more. split; [done|]. intros f Hf.
  apply Hsub, list_elem_of_fmap in Hf as [[k f'] [-> Hin]].
  exists k. by apply elem_of_map_to_list.
Qed.

Lemma merge_disjoint_keys_witness :
  merge objectPrototype handlersStore visitorF ({[ "Literal" := 2%positive ]})
  = (handlersStore, {[ "Literal" := 2%positive ]} ∪ visitorF).
Proof.
  apply (merge_disjoint_keys objectPrototype handlersStore visitorF
           ({[ "Literal" := 2%positive ]})).
  intros key [f Hf]. apply lookup_singleton_Some in Hf as [<- _].
  vm_compute. reflexivity.
Defined.

(** [merge] leaves a property of [x] itself under every key of [y]. *)
Lemma merge_own_key proto store x y key :
  ordinary store proto -> is_Some (y !! key) ->
  is_Some ((merge proto store x y).2 !! key).
Proof.
  intros Hproto Hy. unfold merge.
  destruct (merge_entries_frame proto (map_to_list y) store x
              (NoDup_fst_map_to_list y)) as (_ & Hin & _).
  by apply Hin, elem_of_keys.
Qed.

(** C4.  [x] is a visitor of handlers, or what earlier merges of such
    visitors have left, and [y] a visitor of handlers; both have a handler
    under [key].  After [merge(x, y)] a visit of the function under [key]
    calls the handlers that [x] had for the key (its handler, or the
    members of its multiplexer, in the order of their merges) and then
    the handler of [y], each once and in that order, up to the first
    handler that does not return: when all of them return, all are called;
    a handler that throws or does not return is the last one called, and
    those merged after it are not run.  What a handler returns stops
    nothing. *)
Theorem merge_calls_both_in_order (proto : gmap string Fn)
    (store : gmap Fn FnObj) (x y : gmap string Fn) (key : string)
    (xKey yKey : Fn) (abrupt : Fn -> bool) :
  flat store x -> ordinary store proto -> ordinary store y ->
  x !! key = Some xKey -> y !! key = Some yKey ->
  exists f,
    (merge proto store x y).2 !! key = Some f /\
    invoke 2 (merge proto store x y).1 abrupt f
    = Some (run abrupt (handlersAt store proto x key ++ [yKey])) /\
    ((forall h, h ∈ handlersAt store proto x key ++ [yKey] ->
                abrupt h = false) ->
     invoke 2 (merge proto store x y).1 abrupt f
     = Some (Completed (handlersAt store proto x key ++ [yKey]))) /\
    (forall before h after,
       handlersAt store proto x key ++ [yKey] = before ++ h :: after ->
       (forall g, g ∈ before -> abrupt g = false) -> abrupt h = true ->
       invoke 2 (merge proto store x y).1 abrupt f
       = Some (Aborted (before ++ [h]))).
Proof.
  intros Hflat Hproto Hy Hx Hyk.
  destruct (merge_flat proto store x y Hflat Hproto Hy)
    as (Hflat' & Hat & Hkeep).
  destruct (merge_own_key proto store x y key Hproto) as [f Hf];
    [by eexists|].
  assert (Hproto' : ordinary (merge proto store x y).1 proto).
  { intros k g Hk. apply Hkeep. exact (Hproto k g Hk). }
  assert (Hvisit :
    invoke 2 (merge proto store x y).1 abrupt f
    = Some (run abrupt (handlersAt store proto x key ++ [yKey]))).
  { rewrite (flat_invoke _ proto _ abrupt key f Hflat' Hproto'
               (getProp_own _ _ _ _ Hf)).
    by rewrite Hat, Hyk. }
  exists f. split; [done|]. split; [done|]. split.
  - intros Hall. by rewrite Hvisit, run_completed.
  - intros before h after Heq Hbefore Hh.
    by rewrite Hvisit, Heq, run_aborted.
Qed.

Lemma merge_calls_both_in_order_witness :
  exists f,
    (merge objectPrototype handlersStore visitorF visitorG).2 !! "Identifier"
    = Some f /\
    invoke 2 (merge objectPrototype handlersStore visitorF visitorG).1
      (fun _ => false) f
    = Some (Completed [1%positive; 2%positive]).
Proof.
  destruct (merge_calls_both_in_order objectPrototype handlersStore
              visitorF visitorG "Identifier" 1%positive 2%positive
              (fun _ => false))
    as (f & Hf & _ & Hall & _).
  - split.
    + intros k g Hk. unfold visitorF in Hk.
      apply lookup_singleton_Some in Hk as [_ <-]. by left.
    + intros k1 k2 g Hk1 Hk2 Hne. unfold visitorF in Hk1, Hk2.
      apply lookup_singleton_Some in Hk1 as [<- _].
      apply lookup_singleton_Some in Hk2 as [<- _]. done.
  - exact handlersStore_prototype.
  - intros k g Hk. unfold visitorG in Hk.
    apply lookup_singleton_Some in Hk as [_ <-]. reflexivity.
  - reflexivity.
  - reflexivity.
  - exists f. split; [exact Hf|]. apply Hall. reflexivity.
Defined.

(** C4, the counterexample to the claim as it stands: the handler of the
    first visitor does not return (it throws, or its call runs for ever);
    the visit of the merged function ends with it, and the handler merged
    after it is not run. *)
Lemma abrupt_handler_stops_later_ones :
  (merge objectPrototype handlersStore visitorF visitorG).2 !! "Identifier"
  = Some 22%positive /\
  invoke 2 (merge objectPrototype handlersStore visitorF visitorG).1
    (Pos.eqb 1) 22%positive
  = Some (Aborted [1%positive]).
Proof. split; vm_compute; reflexivity. Qed.

(** X18.  The visitor that [create] builds from the visitors of its rules,
    all of ordinary handlers, starting from [{}]: a visit of the function
    stored under a key calls the function that [{}] inherits under that
    name, if there is one (a method of [Object.prototype]), and then the
    handlers registered for the key, each once, in the order of
    registration, up to the first that does not return; and there is such
    a function as soon as one visitor registers a handler for the key. *)
Corollary create_visits_in_registration_order proto store ys key abrupt :
  ordinary store proto -> Forall (ordinary store) ys ->
  (forall f,
     (mergeAll proto (store, ∅) ys).2 !! key = Some f ->
     invoke 2 (mergeAll proto (store, ∅) ys).1 abrupt f
     = Some (run abrupt (option_list (proto !! key)
                         ++ omap (fun y => y !! key) ys))) /\
  (omap (fun y => y !! key) ys <> [] ->
   is_Some ((mergeAll proto (store, ∅) ys).2 !! key)).
Proof.
  intros Hproto Hord.
  destruct (mergeAll_registration_order proto ys (store, ∅) key)
    as (Hflat & Hproto' & Hh).
  - split; simpl; [intros k g Hk | intros k1 k2 g Hk];
      by rewrite lookup_empty in Hk.
  - exact Hproto.
  - exact Hord.
  - assert (Hempty : handlersAt store proto ∅ key = option_list (proto !! key)).
    { unfold handlersAt, getProp. rewrite lookup_empty.
      destruct (proto !! key) as [p|] eqn:Hp; [|done].
      by rewrite (Hproto key p Hp). }
    simpl in Hh. rewrite Hempty in Hh. split.
    + intros f Hf.
      by rewrite (flat_invoke _ proto _ abrupt key f Hflat Hproto'
                    (getProp_own _ _ _ _ Hf)), Hh.
    + clear Hh Hflat Hproto' Hempty. revert Hord Hproto.
      generalize (∅ : gmap string Fn). revert store.
      induction ys as [|y ys IH]; intros store x Hord Hproto Hne; [done|].
      apply Forall_cons in Hord as [Hy Hord].
      change (mergeAll proto (store, x) (y :: ys))
        with (mergeAll proto (merge proto store x y) ys).
      destruct (merge_entries_frame proto (map_to_list y) store x
                  (NoDup_fst_map_to_list y)) as (_ & Hin & _ & Hkeep & _).
      fold (merge proto store x y) in Hin, Hkeep.
      assert (Hown : forall ys' st,
                is_Some (st.2 !! key) -> ordinary st.1 proto ->
                is_Some ((mergeAll proto st ys').2 !! key)).
      { clear. induction ys' as [|y' ys' IH']; intros st Hst Hp; [done|].
        change (mergeAll proto st (y' :: ys'))
          with (mergeAll proto (merge proto st.1 st.2 y') ys').
        destruct (merge_entries_frame proto (map_to_list y') st.1 st.2
                    (NoDup_fst_map_to_list y')) as (Hout & Hin & _ & Hkeep & _).
        fold (merge proto st.1 st.2 y') in Hout, Hin, Hkeep.
        apply IH'.
        - destruct (y' !! key) as [g|] eqn:Hy'.
          + apply (Hin Hp), elem_of_keys. by eexists.
          + rewrite Hout; [done|]. rewrite elem_of_keys, Hy'. by intros [? ?].
        - intros k g Hk. apply Hkeep. exact (Hp k g Hk). }
      assert (Hproto1 : ordinary (merge proto store x y).1 proto).
      { intros k g Hk. apply Hkeep. exact (Hproto k g Hk). }
      destruct (y !! key) as [g|] eqn:Hyk.
      * apply Hown; [|done]. apply (Hin Hproto), elem_of_keys. by eexists.
      * destruct (merge proto store x y) as [store1 x1] eqn:Hm.
        apply IH; [|done|].
        -- eapply Forall_impl; [exact Hord|]. intros y' Hy' k g Hk.
           apply Hkeep. exact (Hy' k g Hk).
        -- simpl in Hne. by rewrite Hyk in Hne.
Qed.

Lemma create_visits_in_registration_order_witness :
  (forall f,
     (mergeAll objectPrototype (handlersStore, ∅)
        [visitorF; {[ "toString" := 2%positive ]}]).2 !! "toString" = Some f ->
     invoke 2
       (mergeAll objectPrototype (handlersStore, ∅)
          [visitorF; {[ "toString" := 2%positive ]}]).1 (fun _ => false) f
     = Some (run (fun _ => false)
               (option_list (objectPrototype !! "toString")
                ++ omap (fun y : gmap string Fn => y !! "toString")
                     [visitorF; {[ "toString" := 2%positive ]}]))) /\
  (omap (fun y : gmap string Fn => y !! "toString")
     [visitorF; {[ "toString" := 2%positive ]}] <> [] ->
   is_Some ((mergeAll objectPrototype (handlersStore, ∅)
               [visitorF; {[ "toString" := 2%positive ]}]).2 !! "toString")).
Proof.
  apply (create_visits_in_registration_order objectPrototype handlersStore
           [visitorF; {[ "toString" := 2%positive ]}] "toString"
           (fun _ => false)).
  - exact handlersStore_prototype.
  - apply Forall_cons_2; [|apply Forall_cons_2; [|apply Forall_nil_2]];
      intros k f Hk; unfold visitorF in Hk;
      apply lookup_singleton_Some in Hk as [_ <-]; vm_compute; reflexivity.
Defined.

(* --------------------------------------------------------------------- *)
(** ** Rule driver                                                        *)
(* --------------------------------------------------------------------- *)

Lemma rendered_message n feature be version :
  rendered (mkReport n MESSAGE
              [("feature", feature); ("be", be); ("version", version)])
  = feature +:+ " " +:+ be +:+ " not supported yet on Node " +:+ version +:+ ".".
Proof. reflexivity. Qed.

Section ReportFacts.

Variables (supportInfo : SupportInfo) (scope : Scope).
Variables (n : ASTNode) (key : string) (feature : FeatureSupport).
Hypothesis Hfeature : features supportInfo !! key = Some feature.

(** A supported feature is not reported. *)
Lemma report_supported fuel :
  supported feature = true ->
  report fuel supportInfo scope n key = Returns [].
Proof. intros Hs. unfold report. by rewrite Hfeature, Hs. Qed.

(** A feature supported in neither mode is reported once, whatever the
    scope. *)
Lemma report_unsupported fuel :
  supported feature = false -> supportedInStrict feature = false ->
  report fuel supportInfo scope n key =
  Returns [mkReport n MESSAGE
             [("feature", name feature); ("be", beOf feature);
              ("version", version supportInfo)]].
Proof. intros Hs Ht. unfold report. by rewrite Hfeature, Hs, Ht. Qed.

(** A feature supported in strict mode only: when the scope locator
    returns, the node is reported if and only if the scope returned is not
    strict. *)
Lemma report_strict_only fuel found :
  supported feature = false -> supportedInStrict feature = true ->
  getInnermostScope fuel scope (range n).1 = Some found ->
  report fuel supportInfo scope n key =
  Returns (if isStrictScope found then []
           else [mkReport n MESSAGE
                   [("feature", name feature +:+ " in non-strict mode");
                    ("be", beOf feature); ("version", version supportInfo)]]).
Proof.
  intros Hs Ht Hfound. unfold report, isStrict.
  rewrite Hfeature, Hs, Ht, Hfound. simpl. by destruct (isStrictScope found).
Qed.

(** When the scope locator does not return, nor does [report]. *)
Lemma report_strict_only_unfinished fuel :
  supported feature = false -> supportedInStrict feature = true ->
  getInnermostScope fuel scope (range n).1 = None ->
  report fuel supportInfo scope n key = Unfinished.
Proof.
  intros Hs Ht Hnone. unfold report, isStrict.
  by rewrite Hfeature, Hs, Ht, Hnone.
Qed.

End ReportFacts.

Lemma report_at_most_one fuel supportInfo scope n key reports :
  report fuel supportInfo scope n key = Returns reports ->
  (length reports <= 1)%nat.
Proof.
  unfold report. destruct (features supportInfo !! key) as [f|]; [|done].
  destruct (supported f); [intros [= <-]; simpl; lia|].
  destruct (supportedInStrict f); simpl.
  - destruct (isStrict fuel scope n) as [[]|]; intros [= <-]; simpl; lia.
  - intros [= <-]; simpl; lia.
Qed.

(** C6 (code defect, the same one as C1).  The table marks [const]
    unsupported in non-strict code and supported in strict code; the node
    starts at offset 7 of [gapScope], whose innermost scope there is the
    root, which is not strict: the claim has the node reported.  [report]
    asks the scope locator, which never returns: nothing is reported and
    [report] does not return. *)
Theorem report_unfinished_in_gap :
  features strictOnlyInfo !! "const"
    = Some (mkFeatureSupport "'const' declarations" false false true) /\
  wellFormed gapScope /\
  innermostAt 7 gapScope /\
  isStrictScope gapScope = false /\
  forall fuel,
    report fuel strictOnlyInfo gapScope (mkNode (7, 9) "Program" false) "const"
    = Unfinished.
Proof.
  split; [reflexivity|].
  split; [exact gapScope_wellFormed|].
  split; [split; [reflexivity | exact gapScope_stuck]|].
  split; [reflexivity|].
  intros fuel. eapply report_strict_only_unfinished; try reflexivity.
  apply stuck_scope_never_returns; [discriminate | exact gapScope_stuck].
Qed.

(** C7, counterexample.  With generator functions unsupported at 4.0.0,
    the one report of a generator function declaration shows a message
    that ends in [on Node 4.0.0.], not in [on target 4.0.0.]. *)
Lemma generator_message_names_node :
  exists r,
    report 0 generatorInfo gapScope (mkNode (0, 18) "Program" false)
      "generatorFunctions" = Returns [r] /\
    rendered r = "generator functions are not supported yet on Node 4.0.0." /\
    rendered r <> "generator functions are not supported yet on target 4.0.0.".
Proof.
  eexists. split; [reflexivity|]. split; [reflexivity|]. discriminate.
Qed.

(** C7, as amended.  Every report that [report] makes shows the message
    [{feature} {is|are} not supported yet on Node {version}.]: [is] when
    the entry is singular and [are] otherwise, the name followed by
    [in non-strict mode] when the feature is supported in strict mode, and
    the version of the table. *)
Theorem report_message_template fuel supportInfo scope n key reports r :
  report fuel supportInfo scope n key = Returns reports ->
  r ∈ reports ->
  exists feature,
    features supportInfo !! key = Some feature /\
    supported feature = false /\
    rendered r =
      (if supportedInStrict feature
       then name feature +:+ " in non-strict mode" else name feature)
      +:+ " " +:+ (if singular feature then "is" else "are")
      +:+ " not supported yet on Node " +:+ version supportInfo +:+ ".".
Proof.
  unfold report.
  destruct (features supportInfo !! key) as [feature|]; [|done].
  intros Hr Hin. exists feature. split; [reflexivity|].
  destruct (supported feature);
    [inversion Hr; subst; by apply elem_of_nil in Hin|].
  split; [reflexivity|].
  destruct (supportedInStrict feature); simpl in Hr.
  - destruct (isStrict fuel scope n) as [[]|]; inversion Hr; subst.
    + by apply elem_of_nil in Hin.
    + apply list_elem_of_singleton in Hin. subst r. apply rendered_message.
  - inversion Hr; subst.
    apply list_elem_of_singleton in Hin. subst r. apply rendered_message.
Qed.

Lemma report_message_template_witness :
  exists feature,
    features generatorInfo !! "generatorFunctions" = Some feature /\
    supported feature = false /\
    rendered (mkReport (mkNode (0, 18) "Program" false) MESSAGE
                [("feature", "generator functions"); ("be", "are");
                 ("version", "4.0.0")]) =
      (if supportedInStrict feature
       then name feature +:+ " in non-strict mode" else name feature)
      +:+ " " +:+ (if singular feature then "is" else "are")
      +:+ " not supported yet on Node " +:+ version generatorInfo +:+ ".".
Proof.
  apply (report_message_template 0 generatorInfo gapScope
           (mkNode (0, 18) "Program" false) "generatorFunctions"
           [mkReport (mkNode (0, 18) "Program" false) MESSAGE
              [("feature", "generator functions"); ("be", "are");
               ("version", "4.0.0")]]).
  - reflexivity.
  - apply list_elem_of_here.
Defined.

Lemma featureEvents_app calls1 calls2 :
  featureEvents (calls1 ++ calls2) = featureEvents calls1 ++ featureEvents calls2.
Proof. apply omap_app. Qed.

(** Elements that a function maps to one value, in a list on which the
    function takes no value twice: at most one of them. *)
Lemma filter_same_image {A B} (f : A -> B) (P : A -> Prop)
    `{!forall x, Decision (P x)} (l : list A) :
  NoDup (f <$> l) ->
  (forall x y, P x -> P y -> f x = f y) ->
  (length (filter P l) <= 1)%nat.
Proof.
  intros Hnd Hsame. induction l as [|x l IH]; [simpl; lia|].
  simpl in Hnd. apply NoDup_cons in Hnd as [Hx Hnd].
  rewrite filter_cons. destruct (decide (P x)) as [HPx|]; [|by apply IH].
  destruct (filter P l) as [|y ys] eqn:Hfilter; [simpl; lia|].
  exfalso. apply Hx.
  assert (Hy : y ∈ filter P l) by (rewrite Hfilter; left).
  apply list_elem_of_filter in Hy as [HPy Hy].
  rewrite (Hsame x y HPx HPy). apply list_elem_of_fmap. by exists y.
Qed.

Section ExitFacts.

Variable ecmaFeatures : gmap string Feature.t.

Lemma exitStep_inv st event :
  exitInv st -> exitInv (exitStep ecmaFeatures st event).
Proof.
  destruct st as [ignore calls]. intros [Hin Hnd]. unfold exitStep.
  set (sub := includes _ _ && _ && _).
  assert (Hsub : forall ig cs,
            exitInv (ig, cs) ->
            exitInv (ig, if sub then cs ++ [ReportSubclassing event] else cs)).
  { intros ig cs [H1 H2]. destruct sub; [|done].
    unfold exitInv. simpl. rewrite featureEvents_app. simpl.
    by rewrite app_nil_r. }
  destruct (inFeatures _ _) eqn:Hcat; simpl; [|by apply Hsub].
  destruct (bool_decide (ignoreKeyOf event ∈ ignore)) eqn:Hseen; simpl;
    [by apply Hsub|].
  apply bool_decide_eq_false in Hseen.
  apply Hsub. unfold exitInv. simpl in *. rewrite featureEvents_app. simpl.
  split.
  - intros e [He|He]%elem_of_app.
    + apply elem_of_union_r. by apply Hin.
    + apply list_elem_of_singleton in He. subst e.
      apply elem_of_union_l. by apply elem_of_singleton.
  - rewrite fmap_app. apply NoDup_app. split; [done|]. split.
    + intros k Hk Hk'. apply list_elem_of_singleton in Hk'. subst k.
      apply list_elem_of_fmap in Hk as (e & Heq & He).
      apply Hseen. rewrite Heq. by apply Hin.
    + apply NoDup_singleton.
Qed.

Lemma exit_fold_inv events : forall st,
  exitInv st -> exitInv (foldl (exitStep ecmaFeatures) st events).
Proof.
  induction events as [|e events IH]; intros st Hst; [done|].
  simpl. by apply IH, exitStep_inv.
Qed.

Lemma exitCalls_once events root offset :
  (length (filter (hasCompoundKey root offset)
             (featureEvents (exitCalls ecmaFeatures events))) <= 1)%nat.
Proof.
  apply (filter_same_image ignoreKeyOf).
  - unfold exitCalls.
    destruct (exit_fold_inv (rev events) (∅, [])) as [_ Hnd]; [|exact Hnd].
    split; simpl; [intros e He; by apply elem_of_nil in He | constructor].
  - intros x y [Hx1 Hx2] [Hy1 Hy2]. unfold ignoreKeyOf. congruence.
Qed.


Lemma subclassingEvents_app calls1 calls2 :
  subclassingEvents (calls1 ++ calls2)
  = subclassingEvents calls1 ++ subclassingEvents calls2.
Proof. apply omap_app. Qed.

(** One turn of the loop of ["Program:exit"], by cases. *)
Lemma exitStep_cases st event :
  let st' := exitStep ecmaFeatures st event in
  subclassingEvents st'.2
  = subclassingEvents st.2 ++ (if extendsTarget event then [event] else []) /\
  ((catalogued ecmaFeatures event /\ ignoreKeyOf event ∉ st.1) /\
     st'.1 = {[ignoreKeyOf event]} ∪ st.1 /\
     featureEvents st'.2 = featureEvents st.2 ++ [event]
   \/
   ~ (catalogued ecmaFeatures event /\ ignoreKeyOf event ∉ st.1) /\
     st'.1 = st.1 /\ featureEvents st'.2 = featureEvents st.2).
Proof.
  destruct st as [ignore calls]. unfold exitStep, extendsTarget, catalogued.
  set (sub := includes _ _ && _ && _).
  destruct (inFeatures _ _) eqn:Hcat; simpl.
  - destruct (bool_decide (ignoreKeyOf event ∈ ignore)) eqn:Hseen; simpl.
    + apply bool_decide_eq_true in Hseen. split.
      * destruct sub; [|by rewrite app_nil_r].
        by rewrite subclassingEvents_app.
      * right. split; [tauto|]. split; [done|].
        destruct sub; [|done]. rewrite featureEvents_app. simpl.
        by rewrite app_nil_r.
    + apply bool_decide_eq_false in Hseen. split.
      * destruct sub; rewrite ?subclassingEvents_app; simpl;
          rewrite ?subclassingEvents_app; simpl; by rewrite ?app_nil_r.
      * left. split; [done|]. split; [done|].
        destruct sub; rewrite ?featureEvents_app; simpl;
          rewrite ?featureEvents_app; simpl; by rewrite ?app_nil_r.
  - split.
    + destruct sub; [|by rewrite app_nil_r]. by rewrite subclassingEvents_app.
    + right. split; [by intros [? _]|]. split; [done|].
      destruct sub; [|done]. rewrite featureEvents_app. simpl.
      by rewrite app_nil_r.
Qed.

Lemma exit_fold_subclassing events : forall st,
  subclassingEvents (foldl (exitStep ecmaFeatures) st events).2
  = subclassingEvents st.2 ++ filter (fun e => extendsTarget e) events.
Proof.
  induction events as [|e events IH]; intros st; simpl.
  - by rewrite app_nil_r.
  - rewrite IH. destruct (exitStep_cases st e) as [-> _].
    rewrite <- app_assoc. f_equal. rewrite filter_cons.
    by destruct (extendsTarget e).
Qed.

(** A key that is no property name of [Object.prototype] is in the
    catalog when it is a key of its own. *)
Lemma inFeatures_own key :
  includes OBJECT_PROTOTYPE_KEYS key = false ->
  inFeatures ecmaFeatures key = bool_decide (is_Some (ecmaFeatures !! key)).
Proof. intros H. unfold inFeatures. by rewrite H, orb_false_r. Qed.

(** The calls that the pass makes for a read of [Atomics.wait]: one, for
    the member when the catalog has [Atomics.wait], for the root
    otherwise. *)
Lemma atomics_wait_calls identifier member :
  (range identifier).1 = (range member).1 ->
  is_Some (ecmaFeatures !! "Atomics") ->
  exitCalls ecmaFeatures (atomicsWaitEvents identifier member) =
  [ReportFeature
     (if bool_decide (is_Some (ecmaFeatures !! "Atomics.wait"))
      then mkEvent member ["Atomics"; "wait"]
      else mkEvent identifier ["Atomics"])].
Proof.
  intros Hstart Hroot. unfold exitCalls, atomicsWaitEvents. simpl.
  change ("Atomics" +:+ "." +:+ "wait") with "Atomics.wait".
  rewrite (inFeatures_own "Atomics.wait") by reflexivity.
  unfold exitStep. simpl. rewrite (inFeatures_own "Atomics") by reflexivity.
  rewrite (bool_decide_eq_false_2 (_ ∈ ∅)) by apply not_elem_of_empty.
  rewrite andb_true_r.
  destruct (bool_decide (is_Some (ecmaFeatures !! "Atomics.wait"))); simpl.
  - unfold ignoreKeyOf. simpl. rewrite Hstart.
    rewrite (bool_decide_eq_true_2 (_ ∈ _ ∪ ∅));
      [|by apply elem_of_union_l, elem_of_singleton].
    by rewrite andb_false_r.
  - rewrite (bool_decide_eq_true_2 _ Hroot).
    by rewrite (bool_decide_eq_false_2 (_ ∈ ∅)) by apply not_elem_of_empty.
Qed.

(** The calls made for events with one compound key: those of the first
    [if] and those of the second. *)
Lemma calls_by_branch (P : MatchEvent -> Prop) `{!forall e, Decision (P e)}
    (calls : list ReportCall) :
  length (filter (fun call => P (callEvent call)) calls)
  = (length (filter P (featureEvents calls))
     + length (filter P (subclassingEvents calls)))%nat.
Proof.
  induction calls as [|[e|e] calls IH]; [done| |].
  - change (featureEvents (ReportFeature e :: calls))
      with (e :: featureEvents calls).
    change (subclassingEvents (ReportFeature e :: calls))
      with (subclassingEvents calls).
    rewrite !filter_cons. change (callEvent (ReportFeature e)) with e.
    destruct (decide (P e)); simpl; lia.
  - change (featureEvents (ReportSubclassing e :: calls))
      with (featureEvents calls).
    change (subclassingEvents (ReportSubclassing e :: calls))
      with (e :: subclassingEvents calls).
    rewrite !filter_cons. change (callEvent (ReportSubclassing e)) with e.
    destruct (decide (P e)); simpl; lia.
Qed.

Lemma filter_rev_length {A} (P : A -> Prop) `{!forall x, Decision (P x)}
    (l : list A) :
  length (filter P (rev l)) = length (filter P l).
Proof.
  induction l as [|a l IH]; [done|]. simpl.
  rewrite filter_app, length_app, IH, !filter_cons, filter_nil.
  destruct (decide (P a)); simpl; lia.
Qed.

(** C5.  Whatever events the tracer yields, the first [if] of the pass
    calls [report] for at most one event of each compound key (root name
    of the path, start offset of the node); the second [if], for the
    feature [`extends${key}`], is outside this: the calls made for a
    compound key are at most one more than the events of that key that
    name a subclassing target as the super class of a class; and a call
    of [report] makes at most one report.  For a read of [Atomics.wait],
    with [Atomics] in the catalog and unsupported in both modes at the
    version of the table (as at 6.0.0), the pass makes exactly one report,
    at the offset of the read: for the member and the feature
    [Atomics.wait] when the catalog has that key (then unsupported too),
    for the identifier and the feature [Atomics] otherwise; the other
    event is suppressed. *)
Theorem exit_reports_once_per_key fuel supportInfo scope identifier member
    fA fW :
  (range identifier).1 = (range member).1 ->
  is_Some (ecmaFeatures !! "Atomics") ->
  features supportInfo !! "Atomics" = Some fA ->
  supported fA = false -> supportedInStrict fA = false ->
  (is_Some (ecmaFeatures !! "Atomics.wait") ->
   features supportInfo !! "Atomics.wait" = Some fW /\
   supported fW = false /\ supportedInStrict fW = false) ->
  (forall events root offset,
     (length (filter (hasCompoundKey root offset)
                (featureEvents (exitCalls ecmaFeatures events))) <= 1)%nat) /\
  (forall events root offset,
     (length (filter (fun call => hasCompoundKey root offset (callEvent call))
                (exitCalls ecmaFeatures events))
      <= 1 + length (filter (hasCompoundKey root offset)
                       (filter (fun e => extendsTarget e) events)))%nat) /\
  (forall call reports,
     report fuel supportInfo scope (callNode call) (callKey call)
       = Returns reports ->
     (length reports <= 1)%nat) /\
  exists r,
    programExit ecmaFeatures fuel supportInfo scope
      (atomicsWaitEvents identifier member) = Returns [r] /\
    reportNode r =
      (if bool_decide (is_Some (ecmaFeatures !! "Atomics.wait"))
       then member else identifier) /\
    (range (reportNode r)).1 = (range identifier).1 /\
    rendered r =
      name (if bool_decide (is_Some (ecmaFeatures !! "Atomics.wait"))
            then fW else fA)
      +:+ " " +:+
      beOf (if bool_decide (is_Some (ecmaFeatures !! "Atomics.wait"))
            then fW else fA)
      +:+ " not supported yet on Node " +:+ version supportInfo +:+ ".".
Proof.
  intros Hstart Hroot HfA HsA HtA HW.
  split; [apply exitCalls_once|].
  split.
  { intros events root offset. rewrite calls_by_branch.
    pose proof (exitCalls_once events root offset) as Hone.
    unfold exitCalls at 2. rewrite exit_fold_subclassing. simpl.
    rewrite <- (filter_rev_length _ (filter _ events)).
    assert (Hrev : filter (fun e => extendsTarget e) (rev events)
                   = rev (filter (fun e => extendsTarget e) events)).
    { clear. induction events as [|e events IH]; [done|]. simpl.
      rewrite filter_app, IH, !filter_cons, filter_nil.
      destruct (decide (extendsTarget e)); simpl; [done|].
      by rewrite app_nil_r. }
    rewrite Hrev. lia. }
  split; [intros call reports; apply report_at_most_one|].
  unfold programExit. rewrite atomics_wait_calls by assumption.
  destruct (bool_decide (is_Some (ecmaFeatures !! "Atomics.wait"))) eqn:Hcat;
    simpl.
  - apply bool_decide_eq_true in Hcat. destruct (HW Hcat) as (HfW & HsW & HtW).
    change (String.concat "." ["Atomics"; "wait"]) with "Atomics.wait".
    rewrite (report_unsupported _ _ _ _ _ HfW fuel HsW HtW).
    eexists. split; [reflexivity|]. split; [reflexivity|].
    split; [by rewrite Hstart|]. apply rendered_message.
  - change (String.concat "." ["Atomics"]) with "Atomics".
    rewrite (report_unsupported _ _ _ _ _ HfA fuel HsA HtA).
    eexists. split; [reflexivity|]. split; [reflexivity|].
    split; [reflexivity|]. apply rendered_message.
Qed.

End ExitFacts.

Lemma atomicsInfo_parsed :
  parseOptions atomicsFeatures (OptNumber 6%float) DEFAULT_VERSION
  = Some atomicsInfo.
Proof. vm_compute. reflexivity. Qed.

Lemma exit_reports_once_per_key_witness :
  exists r,
    programExit atomicsFeatures 0 atomicsInfo gapScope
      (atomicsWaitEvents (mkNode (0, 7) "MemberExpression" false)
                         (mkNode (0, 12) "ExpressionStatement" false))
    = Returns [r] /\
    reportNode r = mkNode (0, 12) "ExpressionStatement" false /\
    rendered r = "'Atomics.wait' is not supported yet on Node 6.0.0.".
Proof.
  destruct (exit_reports_once_per_key atomicsFeatures 0 atomicsInfo gapScope
              (mkNode (0, 7) "MemberExpression" false)
              (mkNode (0, 12) "ExpressionStatement" false)
              (mkFeatureSupport "'Atomics'" true false false)
              (mkFeatureSupport "'Atomics.wait'" true false false))
    as (_ & _ & _ & r & Hr & Hnode & _ & Hmsg).
  - reflexivity.
  - eexists. vm_compute. reflexivity.
  - vm_compute. reflexivity.
  - reflexivity.
  - reflexivity.
  - intros _. repeat split; vm_compute; reflexivity.
  - exists r. split; [exact Hr|]. split; [exact Hnode | exact Hmsg].
Defined.

(** C5, the counterexample to the claim as it stands: the super class of
    [class A extends Map {}] at 0.10.0, with [Map] and the subclassing of
    [Map] both in the catalog and unsupported.  The one event gets two
    reports at the same node, one from each [if]: two diagnostics for
    features of the catalog under one compound key. *)
Lemma subclassing_reports_same_key_twice :
  parseOptions mapFeatures (OptNumber 0.1%float) DEFAULT_VERSION
  = Some mapInfo /\
  programExit mapFeatures 0 mapInfo gapScope [extendsMapEvent]
  = Returns
      [mkReport (node extendsMapEvent) MESSAGE
         [("feature", "'Map'"); ("be", "is"); ("version", "0.10.0")];
       mkReport (node extendsMapEvent) MESSAGE
         [("feature", "Subclassing of 'Map'"); ("be", "is");
          ("version", "0.10.0")]].
Proof. split; vm_compute; reflexivity. Qed.

(* --------------------------------------------------------------------- *)
(** ** Scope locator: when it returns, and what                          *)
(* --------------------------------------------------------------------- *)

Lemma scan_first cs location scope :
  scanChildScopes cs location scope
  = default scope (firstContaining cs location).
Proof.
  induction cs as [|c rest IH]; simpl; [reflexivity|].
  by destruct (containsLocation c location).
Qed.

Lemma firstContaining_Some cs location c :
  firstContaining cs location = Some c ->
  In c cs /\ containsLocation c location = true.
Proof.
  induction cs as [|h rest IH]; simpl; [discriminate|].
  destruct (containsLocation h location) eqn:Hh.
  - intros [= <-]. split; [by left | done].
  - intros H. destruct (IH H). split; [by right | done].
Qed.

Lemma firstContaining_None cs location :
  firstContaining cs location = None ->
  Forall (fun c => containsLocation c location = false) cs.
Proof.
  induction cs as [|h rest IH]; simpl; [constructor|].
  destruct (containsLocation h location) eqn:Hh; [discriminate|].
  intros H. constructor; [done | by apply IH].
Qed.

Lemma covered_unfold location scope :
  covered location scope =
  match childScopes scope with
  | [] => true
  | cs =>
      match firstContaining cs location with
      | Some c => covered location c
      | None => false
      end
  end.
Proof.
  destruct scope as [r0 r1 s cs].
  assert (Hfix : forall l,
    (fix first (l : list Scope) : bool :=
       match l with
       | [] => false
       | c :: rest =>
           if containsLocation c location then covered location c
           else first rest
       end) l
    = match firstContaining l location with
      | Some c => covered location c
      | None => false
      end).
  { induction l as [|c l IH]; simpl; [reflexivity|].
    destruct (containsLocation c location); [reflexivity | exact IH]. }
  destruct cs as [|c0 rest]; [reflexivity|].
  cbn [covered childScopes firstContaining]. rewrite Hfix.
  by destruct (containsLocation c0 location).
Qed.

Lemma depth_child scope c :
  In c (childScopes scope) -> (depth c < depth scope)%nat.
Proof.
  destruct scope as [r0 r1 s cs]. simpl.
  induction cs as [|h rest IH]; simpl; [done|].
  intros [->|Hin]; [lia|]. specialize (IH Hin). lia.
Qed.

(** More iterations do not change a result. *)
Lemma getInnermostScope_more_fuel fuel : forall fuel' scope location found,
  getInnermostScope fuel scope location = Some found ->
  (fuel <= fuel')%nat ->
  getInnermostScope fuel' scope location = Some found.
Proof.
  induction fuel as [|fuel IH]; intros fuel' scope location found H Hle;
    [discriminate|].
  destruct fuel' as [|fuel']; [lia|]. simpl in *.
  destruct (childScopes scope); [done|]. apply IH; [done | lia].
Qed.

Lemma covered_returns location : forall fuel scope,
  (depth scope <= fuel)%nat -> covered location scope = true ->
  is_Some (getInnermostScope fuel scope location).
Proof.
  induction fuel as [|fuel IH]; intros scope Hd Hc.
  - destruct scope; simpl in Hd; lia.
  - simpl. rewrite covered_unfold in Hc.
    destruct (childScopes scope) as [|c0 rest] eqn:Hcs; [by eexists|].
    rewrite scan_first.
    destruct (firstContaining (c0 :: rest) location) as [c|] eqn:Hfirst;
      [|discriminate].
    simpl. apply IH; [|done].
    apply firstContaining_Some in Hfirst as [Hin _].
    rewrite <- Hcs in Hin. apply depth_child in Hin. lia.
Qed.

Lemma returns_covered location : forall fuel scope,
  is_Some (getInnermostScope fuel scope location) ->
  covered location scope = true.
Proof.
  induction fuel as [|fuel IH]; intros scope [found H]; [discriminate|].
  simpl in H. rewrite covered_unfold.
  destruct (childScopes scope) as [|c0 rest] eqn:Hcs; [reflexivity|].
  rewrite scan_first in H.
  destruct (firstContaining (c0 :: rest) location) as [c|] eqn:Hfirst.
  - apply IH. by eexists.
  - simpl in H. apply firstContaining_None in Hfirst.
    rewrite stuck_scope_never_returns in H; [discriminate | by rewrite Hcs |].
    by rewrite Hcs.
Qed.

(** X1.  [getInnermostScope] returns exactly when the descent is covered: every
    scope met has no child scope or a child that contains the location.
    Then [depth scope] iterations are enough; otherwise no number of
    iterations gives a result. *)
Theorem getInnermostScope_returns_iff scope location :
  ((exists fuel, is_Some (getInnermostScope fuel scope location)) <->
   covered location scope = true) /\
  (is_Some (getInnermostScope (depth scope) scope location) <->
   covered location scope = true) /\
  (covered location scope = false <->
   forall fuel, getInnermostScope fuel scope location = None).
Proof.
  assert (H1 : (exists fuel, is_Some (getInnermostScope fuel scope location))
               <-> covered location scope = true).
  { split.
    - intros [fuel H]. by eapply returns_covered.
    - intros H. exists (depth scope). by apply covered_returns. }
  split; [exact H1|]. split.
  - split; [apply returns_covered | by apply covered_returns].
  - split.
    + intros Hc fuel.
      destruct (getInnermostScope fuel scope location) eqn:E; [|done].
      rewrite (returns_covered location fuel scope) in Hc; [done | by rewrite E].
    + intros Hnone. destruct (covered location scope) eqn:Hc; [|done].
      destruct (covered_returns location (depth scope) scope) as [r Hr];
        [lia | done |]. by rewrite Hnone in Hr.
Qed.

Lemma scopeWithin_trans a b c :
  scopeWithin a b -> scopeWithin b c -> scopeWithin a c.
Proof.
  intros Hab Hbc. induction Hbc as [|b child c Hin Hb IH]; [done|].
  eapply within_child; [exact Hin | by apply IH].
Qed.

(** X2.  What [getInnermostScope] returns, when it returns: a scope of the tree
    under the initial scope that has no child scope; its range contains the
    location as soon as the descent has left the initial scope or the
    initial scope's range contains it. *)
Theorem getInnermostScope_result fuel initialScope location found :
  getInnermostScope fuel initialScope location = Some found ->
  scopeWithin found initialScope /\
  childScopes found = [] /\
  (found <> initialScope \/ containsLocation initialScope location = true ->
   containsLocation found location = true).
Proof.
  revert initialScope.
  induction fuel as [|fuel IH]; intros initialScope H; [discriminate|].
  simpl in H.
  destruct (childScopes initialScope) as [|c0 rest] eqn:Hcs.
  - inversion H; subst. split; [constructor|]. split; [done|].
    intros [Hne|Hin]; [done | exact Hin].
  - rewrite scan_first in H.
    destruct (firstContaining (c0 :: rest) location) as [c|] eqn:Hfirst;
      simpl in H.
    + apply firstContaining_Some in Hfirst as [Hin Hc].
      destruct (IH c H) as (Hw & Hleaf & Hcont).
      split; [eapply within_child; [by rewrite Hcs | done]|].
      split; [done|]. intros _.
      apply Hcont. by right.
    + apply firstContaining_None in Hfirst.
      rewrite stuck_scope_never_returns in H; [done | by rewrite Hcs |].
      by rewrite Hcs.
Qed.

Lemma getInnermostScope_result_witness :
  scopeWithin (mkScope 20 30 true []) nestedScope /\
  childScopes (mkScope 20 30 true []) = [] /\
  (mkScope 20 30 true [] <> nestedScope \/
   containsLocation nestedScope 25 = true ->
   containsLocation (mkScope 20 30 true []) 25 = true).
Proof.
  apply (getInnermostScope_result 3 nestedScope 25). reflexivity.
Defined.

Lemma wellFormed_children scope :
  wellFormed scope ->
  pairwiseDisjoint (childScopes scope) /\
  forall c, In c (childScopes scope) -> within c scope /\ wellFormed c.
Proof.
  destruct scope as [r0 r1 s cs]. cbn [wellFormed childScopes].
  intros [Hdis Hall]. split; [exact Hdis|].
  clear Hdis. induction cs as [|h rest IH]; [done|].
  destruct Hall as [Hh Hrest]. intros c [<-|Hin]; [exact Hh | by apply IH].
Qed.

Lemma contains_within inner outer location :
  within inner outer -> containsLocation inner location = true ->
  containsLocation outer location = true.
Proof.
  unfold within, containsLocation. simpl. intros [H1 H2] H.
  apply andb_prop in H as [Ha Hb]. apply andb_true_intro. split; lia.
Qed.

(** In a well-formed tree, a scope contains every location that a scope
    below it contains. *)
Lemma scopeWithin_contains inner outer location :
  wellFormed outer -> scopeWithin inner outer ->
  containsLocation inner location = true ->
  containsLocation outer location = true.
Proof.
  intros Hwf Hin. induction Hin as [|inner child outer Hc Hin IH]; [done|].
  intros Hloc. destruct (wellFormed_children outer Hwf) as [_ Hch].
  destruct (Hch child Hc) as [Hw Hwfc].
  eapply contains_within; [exact Hw | by apply IH].
Qed.

(** Among disjoint siblings, the first one that contains the location is
    the only one. *)
Lemma firstContaining_unique cs location c c' :
  pairwiseDisjoint cs ->
  firstContaining cs location = Some c ->
  In c' cs -> containsLocation c' location = true -> c' = c.
Proof.
  induction cs as [|h rest IH]; simpl; [done|].
  intros [Hh Hdis] Hfirst Hin Hc'.
  destruct (containsLocation h location) eqn:Hhc.
  - inversion Hfirst; subst h. destruct Hin as [->|Hin]; [done|].
    exfalso. rewrite Forall_forall in Hh.
    assert (Hd : disjointRanges c c') by (apply Hh; by apply list_elem_of_In).
    unfold disjointRanges, containsLocation in *. simpl in *.
    apply andb_prop in Hhc as [? ?]. apply andb_prop in Hc' as [? ?]. lia.
  - destruct Hin as [->|Hin]; [congruence|]. by apply IH.
Qed.

Lemma getInnermostScope_below fuel : forall initialScope location found,
  getInnermostScope fuel initialScope location = Some found ->
  scopeWithin found initialScope.
Proof.
  induction fuel as [|fuel IH]; intros initialScope location found H;
    [discriminate|].
  simpl in H.
  destruct (childScopes initialScope) as [|c0 rest] eqn:Hcs.
  - inversion H; subst. constructor.
  - rewrite scan_first in H.
    destruct (firstContaining (c0 :: rest) location) as [c|] eqn:Hfirst;
      simpl in H.
    + apply firstContaining_Some in Hfirst as [Hin _].
      eapply within_child; [by rewrite Hcs | by eapply IH].
    + apply firstContaining_None in Hfirst.
      rewrite stuck_scope_never_returns in H; [done | by rewrite Hcs |].
      by rewrite Hcs.
Qed.

(** X3.  In a well-formed tree the scope returned is the innermost one: every
    scope of the tree that contains the location encloses it. *)
Theorem getInnermostScope_innermost fuel initialScope location found other :
  wellFormed initialScope ->
  getInnermostScope fuel initialScope location = Some found ->
  scopeWithin other initialScope ->
  containsLocation other location = true ->
  scopeWithin found other.
Proof.
  revert initialScope.
  induction fuel as [|fuel IH]; intros initialScope Hwf H Hother Hloc;
    [discriminate|].
  simpl in H.
  destruct (wellFormed_children initialScope Hwf) as [Hdis Hch].
  destruct (childScopes initialScope) as [|c0 rest] eqn:Hcs.
  - inversion H; subst found.
    inversion Hother as [|? child ? Hin]; subst; [constructor|].
    rewrite Hcs in Hin. destruct Hin.
  - rewrite scan_first in H.
    destruct (firstContaining (c0 :: rest) location) as [c|] eqn:Hfirst;
      simpl in H.
    + pose proof (firstContaining_Some _ _ _ Hfirst) as [Hin Hc].
      destruct (Hch c Hin) as [_ Hwfc].
      inversion Hother as [|? child ? Hchild Hbelow]; subst.
      * eapply within_child; [by rewrite Hcs|].
        by eapply getInnermostScope_below.
      * rewrite Hcs in Hchild.
        destruct (Hch child Hchild) as [_ Hwfchild].
        assert (child = c).
        { eapply firstContaining_unique; [exact Hdis | exact Hfirst | done |].
          by eapply scopeWithin_contains. }
        subst child. by eapply IH.
    + apply firstContaining_None in Hfirst.
      rewrite stuck_scope_never_returns in H; [done | by rewrite Hcs |].
      by rewrite Hcs.
Qed.

Lemma getInnermostScope_innermost_witness :
  scopeWithin (mkScope 20 30 true [])
              (mkScope 10 50 true [mkScope 20 30 true []]).
Proof.
  apply (getInnermostScope_innermost 3 nestedScope 25).
  - cbn. repeat split; try (cbn; lia); repeat constructor; cbn; lia.
  - reflexivity.
  - eapply within_child; [left; reflexivity | constructor].
  - reflexivity.
Defined.

(* --------------------------------------------------------------------- *)
(** ** Version resolver: the table and the options                       *)
(* --------------------------------------------------------------------- *)

Section ResolverMore.

Variable ecmaFeatures : gmap string Feature.t.

Implicit Types (range : option semver.Range) (ignores : list string).
Implicit Types (key : string) (options : Options).

Lemma parseOptions_resolved options defaultVersion info key feature :
  parseOptions ecmaFeatures options defaultVersion = Some info ->
  ecmaFeatures !! key = Some feature ->
  exists entry,
    features info !! key = Some entry /\
    resolveFeature ecmaFeatures (optionRange options defaultVersion)
      (optionIgnores options) key = Some entry.
Proof.
  intros Hinfo Hf.
  assert (Hdef : is_Some (parseOptions ecmaFeatures options defaultVersion))
    by (by rewrite Hinfo).
  apply parseOptions_defined in Hdef. rewrite Forall_forall in Hdef.
  destruct (Hdef key) as [entry Hentry].
  { apply OPTIONS_elem. by eexists. }
  exists entry. split; [|done].
  by rewrite (parseOptions_lookup _ _ _ _ key Hinfo).
Qed.

(** X4.  The support table is never partial: it has an entry for every key of
    the catalog and for no other key, and each entry carries the name and
    the grammatical number of its descriptor. *)
Theorem parseOptions_table_complete options defaultVersion info :
  parseOptions ecmaFeatures options defaultVersion = Some info ->
  dom (features info) = dom ecmaFeatures /\
  forall key feature,
    ecmaFeatures !! key = Some feature ->
    exists entry,
      features info !! key = Some entry /\
      name entry = Feature.name feature /\
      singular entry = default false (Feature.singular feature).
Proof.
  intros Hinfo. split.
  - apply set_eq. intros key. rewrite !elem_of_dom. split.
    + intros [entry Hentry].
      rewrite (parseOptions_lookup _ _ _ _ key Hinfo) in Hentry.
      unfold resolveFeature in Hentry.
      destruct (ecmaFeatures !! key); [by eexists | done].
    + intros [feature Hf].
      destruct (parseOptions_resolved _ _ _ _ _ Hinfo Hf) as (e & He & _).
      by eexists.
  - intros key feature Hf.
    destruct (parseOptions_resolved _ _ _ _ _ Hinfo Hf) as (e & He & Hr).
    exists e. split; [done|].
    unfold resolveFeature in Hr. rewrite Hf in Hr. simpl in Hr.
    destruct (isIgnored ecmaFeatures key (optionIgnores options)) as [[]|];
      simpl in Hr; [by inversion Hr | | done].
    destruct (Feature.node feature) as [v| |sloppy strict]; simpl in Hr.
    + destruct (reaches _ v); simpl in Hr; [by inversion Hr | done].
    + by inversion Hr.
    + destruct (reachesByMode _ sloppy); simpl in Hr; [|done].
      destruct (reachesByMode _ strict); simpl in Hr; [by inversion Hr | done].
Qed.

Lemma reaches_ge v threshold t :
  semver.parseVersion threshold = Some t ->
  reaches (Some [[semver.mkComparator semver.OpGe v]]) threshold
  = Some (semver.gte v t).
Proof.
  intros Ht. unfold reaches, semver.intersects.
  rewrite (validRange_lt _ _ Ht). cbn -[semver.rangeIntersects].
  by rewrite rangeIntersects_ge_lt.
Qed.

Lemma reaches_eq v threshold t :
  semver.parseVersion threshold = Some t ->
  reaches (Some [[semver.mkComparator semver.OpEq v]]) threshold
  = Some (semver.gte v t).
Proof.
  intros Ht. unfold reaches, semver.intersects.
  rewrite (validRange_lt _ _ Ht). cbn -[semver.rangeIntersects].
  by rewrite rangeIntersects_eq_lt.
Qed.

Lemma reachesByMode_meets r v threshold :
  (forall th t, semver.parseVersion th = Some t ->
                reaches (Some r) th = Some (semver.gte v t)) ->
  from_option validThreshold True threshold ->
  reachesByMode (Some r) threshold = Some (meets v threshold).
Proof.
  intros Hr Hth. destruct threshold as [th|]; simpl; [|done].
  destruct Hth as [t Ht]. unfold meets. simpl. rewrite Ht. by apply Hr.
Qed.

(** The entry of a feature that is not ignored, under a range that stands
    for "version [v] and above": each field says whether [v] meets the
    threshold of its mode. *)
Lemma resolveFeature_meets r v ignores key feature :
  (forall th t, semver.parseVersion th = Some t ->
                reaches (Some r) th = Some (semver.gte v t)) ->
  ecmaFeatures !! key = Some feature ->
  validNode (Feature.node feature) ->
  isIgnored ecmaFeatures key ignores = Some false ->
  resolveFeature ecmaFeatures (Some r) ignores key
  = Some (mkFeatureSupport (Feature.name feature)
            (default false (Feature.singular feature))
            (meets v (sloppyThreshold (Feature.node feature)))
            (meets v (strictThreshold (Feature.node feature)))).
Proof.
  intros Hr Hf Hnode Hign. unfold resolveFeature.
  rewrite Hf. simpl. rewrite Hign. simpl.
  destruct (Feature.node feature) as [th| |sloppy strict]; simpl in *.
  - destruct Hnode as [t Ht]. rewrite (Hr th t Ht). simpl.
    unfold meets. simpl. by rewrite Ht.
  - done.
  - destruct Hnode as [Hs Ht].
    by rewrite !(reachesByMode_meets _ v) by done.
Qed.

(** X5.  A configured version supports a feature exactly from the threshold on:
    for a feature that is not ignored, [supported] says whether the version
    is at or above the threshold for non-strict code and
    [supportedInStrict] whether it is at or above the one for strict code;
    a mode without a threshold is not supported. *)
Theorem support_is_threshold_met options defaultVersion text v info key feature :
  optionVersion options = Some text ->
  semver.parseVersion text = Some v ->
  parseOptions ecmaFeatures options defaultVersion = Some info ->
  ecmaFeatures !! key = Some feature ->
  validNode (Feature.node feature) ->
  isIgnored ecmaFeatures key (optionIgnores options) = Some false ->
  exists entry,
    features info !! key = Some entry /\
    supported entry = meets v (sloppyThreshold (Feature.node feature)) /\
    supportedInStrict entry = meets v (strictThreshold (Feature.node feature)).
Proof.
  intros Ho Hv Hinfo Hf Hnode Hign.
  exists (mkFeatureSupport (Feature.name feature)
            (default false (Feature.singular feature))
            (meets v (sloppyThreshold (Feature.node feature)))
            (meets v (strictThreshold (Feature.node feature)))).
  split; [|split; reflexivity].
  rewrite (parseOptions_lookup _ _ _ _ key Hinfo).
  rewrite (optionRange_configured _ defaultVersion _ _ Ho Hv).
  exact (resolveFeature_meets _ v _ _ _ (reaches_ge v) Hf Hnode Hign).
Qed.

Lemma validRange_bare text v :
  semver.parseVersion text = Some v ->
  semver.validRange text = Some [[semver.mkComparator semver.OpEq v]].
Proof.
  intros Hv. pose proof (parseVersion_chars _ _ Hv) as Hchars.
  pose proof (allChars_version_plain _ Hchars) as [Hsp Hor].
  destruct text as [|c rest]; [discriminate|].
  apply validRange_single; simpl; try assumption; try reflexivity.
  simpl in Hchars. apply andb_prop in Hchars as [Hc _].
  destruct c as [[] [] [] [] [] [] [] []];
    try (vm_compute in Hc; discriminate Hc);
    cbn [semver.parseComparator]; now rewrite Hv.
Qed.

Lemma resolveFeatures_ext range range' ignores ignores' keys :
  (forall key, key ∈ keys ->
     resolveFeature ecmaFeatures range ignores key
     = resolveFeature ecmaFeatures range' ignores' key) ->
  resolveFeatures ecmaFeatures range ignores keys
  = resolveFeatures ecmaFeatures range' ignores' keys.
Proof.
  unfold resolveFeatures. generalize (Some (∅ : gmap string FeatureSupport)).
  induction keys as [|k ks IH]; intros acc Hext; [done|].
  simpl. unfold assignFeature at 2 4.
  rewrite (Hext k) by apply list_elem_of_here.
  apply IH. intros key Hkey. apply Hext. by apply list_elem_of_further.
Qed.

Lemma parseOptions_ext options options' defaultVersion defaultVersion' :
  (if truthy (optionVersion options) then default "" (optionVersion options)
   else defaultVersion)
  = (if truthy (optionVersion options') then default "" (optionVersion options')
     else defaultVersion') ->
  (forall key feature,
     ecmaFeatures !! key = Some feature ->
     resolveFeature ecmaFeatures (optionRange options defaultVersion)
       (optionIgnores options) key
     = resolveFeature ecmaFeatures (optionRange options' defaultVersion')
         (optionIgnores options') key) ->
  parseOptions ecmaFeatures options defaultVersion
  = parseOptions ecmaFeatures options' defaultVersion'.
Proof.
  intros Hversion Hext. unfold parseOptions. rewrite Hversion.
  rewrite (resolveFeatures_ext _ (optionRange options' defaultVersion') _
             (optionIgnores options')); [done|].
  intros key [feature Hf]%OPTIONS_elem. by eapply Hext.
Qed.

(** X6.  With no version configured and an exact version [X.Y.Z] as the default
    (as [DEFAULT_VERSION] is), the result is the one of configuring that
    version: the exact version and the range from it upward give every
    feature the same entry. *)
Theorem default_version_as_configured options options' text v defaultVersion :
  validCatalog ecmaFeatures ->
  semver.parseVersion text = Some v ->
  optionVersion options = None ->
  optionVersion options' = Some text ->
  optionIgnores options = optionIgnores options' ->
  parseOptions ecmaFeatures options text
  = parseOptions ecmaFeatures options' defaultVersion.
Proof.
  intros Hcat Hv Ho Ho' Hign. apply parseOptions_ext.
  - rewrite Ho, Ho'. simpl. by destruct text.
  - intros key feature Hf.
    rewrite optionRange_default, (validRange_bare _ _ Hv) by done.
    rewrite (optionRange_configured _ defaultVersion _ _ Ho' Hv), <- Hign.
    pose proof (Hcat key feature Hf) as Hnode. cbv beta in Hnode.
    destruct (isIgnored ecmaFeatures key (optionIgnores options))
      as [[]|] eqn:Hi.
    + unfold resolveFeature. rewrite Hf. simpl. by rewrite Hi.
    + by rewrite !(resolveFeature_meets _ v _ _ _) by
        (done || apply reaches_eq || apply reaches_ge).
    + unfold resolveFeature. rewrite Hf. simpl. by rewrite Hi.
Qed.

Lemma isIgnored_mono key ignores ignores' :
  ignores ⊆ ignores' ->
  isIgnored ecmaFeatures key ignores = Some true ->
  isIgnored ecmaFeatures key ignores' = Some true.
Proof.
  intros Hsub. unfold isIgnored.
  destruct (includes ignores key) eqn:Hk.
  - apply includes_spec, Hsub, includes_spec in Hk. by rewrite Hk.
  - destruct (ecmaFeatures !! key) as [feature|]; simpl; [|done].
    intros [= Hex]. apply existsb_exists in Hex as (alias & Hin & Ha).
    apply includes_spec, Hsub, includes_spec in Ha.
    destruct (includes ignores' key); [done|]. f_equal.
    apply existsb_exists. by exists alias.
Qed.

Lemma resolveFeature_more_ignores range ignores ignores' key entry :
  ignores ⊆ ignores' ->
  resolveFeature ecmaFeatures range ignores key = Some entry ->
  exists entry',
    resolveFeature ecmaFeatures range ignores' key = Some entry' /\
    name entry' = name entry /\ singular entry' = singular entry /\
    (supported entry = true -> supported entry' = true) /\
    (supportedInStrict entry = true -> supportedInStrict entry' = true).
Proof.
  intros Hsub. unfold resolveFeature.
  destruct (ecmaFeatures !! key) as [feature|] eqn:Hf; simpl; [|done].
  rewrite !(isIgnored_catalogued _ _ _ _ Hf). simpl.
  set (i := includes ignores key || _). set (i' := includes ignores' key || _).
  assert (Hi : i = true -> i' = true).
  { intros Hi.
    assert (H : isIgnored ecmaFeatures key ignores' = Some true).
    { apply (isIgnored_mono _ ignores); [done|].
      rewrite (isIgnored_catalogued _ _ _ _ Hf). by f_equal. }
    rewrite (isIgnored_catalogued _ _ _ _ Hf) in H. by inversion H. }
  destruct i.
  - rewrite Hi by done. intros [= <-]. eexists. by repeat split.
  - destruct i'.
    + intros Hentry. eexists. split; [done|].
      destruct (Feature.node feature) as [th| |sloppy strict]; simpl in Hentry.
      * destruct (reaches range th); simpl in Hentry; [|done].
        by inversion Hentry.
      * by inversion Hentry.
      * destruct (reachesByMode range sloppy); simpl in Hentry; [|done].
        destruct (reachesByMode range strict); simpl in Hentry; [|done].
        by inversion Hentry.
    + intros Hentry. exists entry. by repeat split.
Qed.

(** X7.  Ignoring more never takes support away: with the same version and a
    longer list of ignores the table is still returned, and every field
    that said "supported" says so still. *)
Theorem more_ignores_keep_support options options' defaultVersion info :
  optionVersion options = optionVersion options' ->
  optionIgnores options ⊆ optionIgnores options' ->
  parseOptions ecmaFeatures options defaultVersion = Some info ->
  exists info',
    parseOptions ecmaFeatures options' defaultVersion = Some info' /\
    version info' = version info /\
    forall key entry,
      features info !! key = Some entry ->
      exists entry',
        features info' !! key = Some entry' /\
        (supported entry = true -> supported entry' = true) /\
        (supportedInStrict entry = true -> supportedInStrict entry' = true).
Proof.
  intros Hver Hsub Hinfo.
  assert (Hrange : optionRange options' defaultVersion
                   = optionRange options defaultVersion)
    by (unfold optionRange; by rewrite Hver).
  assert (Hdef : is_Some (parseOptions ecmaFeatures options' defaultVersion)).
  { apply parseOptions_defined. rewrite Hrange.
    assert (H : is_Some (parseOptions ecmaFeatures options defaultVersion))
      by (by rewrite Hinfo).
    apply parseOptions_defined in H.
    eapply Forall_impl; [exact H|]. intros key [entry Hentry]. simpl.
    destruct (resolveFeature_more_ignores _ _ _ _ _ Hsub Hentry)
      as (entry' & -> & _). by eexists. }
  destruct Hdef as [info' Hinfo']. exists info'. split; [done|]. split.
  - rewrite (parseOptions_version _ _ _ _ Hinfo),
      (parseOptions_version _ _ _ _ Hinfo'). by rewrite Hver.
  - intros key entry Hentry.
    rewrite (parseOptions_lookup _ _ _ _ key Hinfo) in Hentry.
    rewrite (parseOptions_lookup _ _ _ _ key Hinfo'), Hrange.
    destruct (resolveFeature_more_ignores _ _ _ _ _ Hsub Hentry)
      as (entry' & -> & _ & _ & Hs & Hst). by exists entry'.
Qed.

End ResolverMore.

Section IgnoresEnum.

Variable ecmaFeatures : gmap string Feature.t.

Lemma setAliases_lookup aliases : forall retv x,
  setAliases retv aliases !! x =
  if decide (x ∈ aliases) then Some true else retv !! x.
Proof.
  unfold setAliases.
  induction aliases as [|a rest IH]; intros retv x; cbn [foldl].
  - rewrite decide_False; [done | apply not_elem_of_nil].
  - rewrite IH. destruct (decide (x ∈ rest)) as [Hin|Hnin].
    + rewrite decide_True; [done | by apply list_elem_of_further].
    + destruct (decide (x = a)) as [->|Hne].
      * rewrite lookup_insert_eq, decide_True; [done | apply list_elem_of_here].
      * rewrite lookup_insert_ne by done.
        rewrite decide_False; [done|].
        by intros [?|?]%elem_of_cons.
Qed.

(** What the [reduce] of [getIgnoresEnum] has put in [retv] after the
    keys [keys]. *)
Lemma ignoresStep_fold keys : forall acc,
  Forall (fun key => is_Some (ecmaFeatures !! key)) keys ->
  exists retv,
    foldl (ignoresStep ecmaFeatures) (Some acc) keys = Some retv /\
    forall x,
      is_Some (retv !! x) <->
      is_Some (acc !! x) \/ x ∈ keys \/
      exists key feature,
        key ∈ keys /\ ecmaFeatures !! key = Some feature /\
        x ∈ Feature.alias feature.
Proof.
  induction keys as [|k ks IH]; intros acc Hall.
  - exists acc. split; [done|]. intros x. split; [by left|].
    intros [H|[H|(key & f & H & _)]]; [done | |]; by apply elem_of_nil in H.
  - apply Forall_cons in Hall as [[feature Hf] Hall].
    simpl. rewrite Hf. simpl.
    destruct (IH (<[k := true]> (setAliases acc (Feature.alias feature))) Hall)
      as (retv & Hfold & Hretv).
    exists retv. split; [done|]. intros x. rewrite Hretv. clear Hretv.
    destruct (decide (x = k)) as [->|Hne].
    + rewrite lookup_insert_eq. split.
      * intros _. right. left. apply list_elem_of_here.
      * intros _. left. by eexists.
    + rewrite lookup_insert_ne by done. rewrite setAliases_lookup. split.
      * intros [H|[H|(key & f & Hin & Hkey & Hx)]].
        -- destruct (decide (x ∈ Feature.alias feature)) as [Hal|_].
           ++ right. right. exists k, feature.
              split; [apply list_elem_of_here | done].
           ++ by left.
        -- right. left. by apply list_elem_of_further.
        -- right. right. exists key, f.
           split; [by apply list_elem_of_further | done].
      * intros [H|[H|(key & f & Hin & Hkey & Hx)]].
        -- left. by destruct (decide (x ∈ Feature.alias feature)).
        -- apply elem_of_cons in H as [H|H]; [done|]. by right; left.
        -- apply elem_of_cons in Hin as [->|Hin].
           ++ left. rewrite Hf in Hkey. inversion Hkey; subst f.
              rewrite decide_True by done. by eexists.
           ++ right. right. by exists key, f.
Qed.

(** The object [retv] at the end of the [reduce] of [getIgnoresEnum]: its
    properties are the keys of the catalog and the aliases of its
    features. *)
Lemma ignoresEnum_retv :
  exists retv,
    foldl (ignoresStep ecmaFeatures) (Some ∅) (OPTIONS ecmaFeatures)
    = Some retv /\
    forall x,
      is_Some (retv !! x) <->
      is_Some (ecmaFeatures !! x) \/
      exists key feature,
        ecmaFeatures !! key = Some feature /\ x ∈ Feature.alias feature.
Proof.
  destruct (ignoresStep_fold (OPTIONS ecmaFeatures) ∅) as (retv & Hfold & Hretv).
  { apply Forall_forall. intros key. by rewrite OPTIONS_elem. }
  exists retv. split; [done|]. intros x. rewrite Hretv. split.
  - intros [H|[H|(key & f & _ & Hkey & Hx)]].
    + rewrite lookup_empty in H. by destruct H.
    + left. by apply OPTIONS_elem.
    + right. by exists key, f.
  - intros [H|(key & f & Hkey & Hx)]; right.
    + left. by apply OPTIONS_elem.
    + right. exists key, f. split; [|done]. apply OPTIONS_elem. by eexists.
Qed.

(** X8.  [getIgnoresEnum] returns, without an exception and without
    repetition, exactly the keys of the catalog and the aliases of its
    features. *)
Theorem getIgnoresEnum_keys_and_aliases :
  exists enum,
    getIgnoresEnum ecmaFeatures = Some enum /\
    NoDup enum /\
    forall x,
      x ∈ enum <->
      is_Some (ecmaFeatures !! x) \/
      exists key feature,
        ecmaFeatures !! key = Some feature /\ x ∈ Feature.alias feature.
Proof.
  destruct ignoresEnum_retv as (retv & Hfold & Hretv).
  exists (map_to_list retv).*1. unfold getIgnoresEnum. rewrite Hfold.
  split; [done|]. split; [apply NoDup_fst_map_to_list|].
  intros x. by rewrite elem_of_keys.
Qed.

Lemma includes_filter (enum ignores : list string) x :
  x ∈ enum ->
  includes (filter (fun i => i ∈ enum) ignores) x = includes ignores x.
Proof.
  intros Hx. apply eq_true_iff_eq. rewrite !includes_spec.
  rewrite list_elem_of_filter. tauto.
Qed.

(** X9.  Only the members of the enum count among the ignores: the values of
    [ignores] that [getIgnoresEnum] does not list can be left out
    without changing what [parseOptions] returns. *)
Theorem ignores_outside_enum_have_no_effect enum optVersion ignores
    defaultVersion :
  getIgnoresEnum ecmaFeatures = Some enum ->
  parseOptions ecmaFeatures (OptObject optVersion (Some ignores)) defaultVersion
  = parseOptions ecmaFeatures
      (OptObject optVersion (Some (filter (fun i => i ∈ enum) ignores)))
      defaultVersion.
Proof.
  intros Henum.
  destruct ignoresEnum_retv as (retv & Hfold & Hretv).
  unfold getIgnoresEnum in Henum. rewrite Hfold in Henum.
  inversion Henum; subst enum. clear Henum.
  assert (Hspec : forall x,
    x ∈ (map_to_list retv).*1 <->
    is_Some (ecmaFeatures !! x) \/
    exists key feature,
      ecmaFeatures !! key = Some feature /\ x ∈ Feature.alias feature)
    by (intros x; by rewrite elem_of_keys).
  set (enum := (map_to_list retv).*1) in *. clearbody enum.
  apply parseOptions_ext.
  - by destruct optVersion.
  - intros key feature Hf.
    assert (Hrange :
      optionRange (OptObject optVersion (Some ignores)) defaultVersion
      = optionRange
          (OptObject optVersion (Some (filter (fun i => i ∈ enum) ignores)))
          defaultVersion) by (by destruct optVersion).
    rewrite Hrange. unfold resolveFeature. rewrite Hf. simpl.
    rewrite !(isIgnored_catalogued _ _ _ _ Hf).
    rewrite includes_filter by (apply Hspec; left; by eexists).
    assert (Halias :
      existsb (fun alias => includes (filter (fun i => i ∈ enum) ignores) alias)
        (Feature.alias feature)
      = existsb (fun alias => includes ignores alias) (Feature.alias feature)).
    { assert (Hall : forall a, a ∈ Feature.alias feature -> a ∈ enum).
      { intros a Ha. apply Hspec. right. by exists key, feature. }
      induction (Feature.alias feature) as [|a rest IH]; [done|]. simpl.
      rewrite includes_filter by (apply Hall, list_elem_of_here).
      rewrite IH; [done|]. intros b Hb. by apply Hall, list_elem_of_further. }
    by rewrite Halias.
Qed.

(** X10.  A feature ignored by its key or by one of its aliases is never
    reported: on the table that [parseOptions] returns, [report] comes
    back without a diagnostic for every node and in every scope, and does
    not look for the scope. *)
Theorem ignored_feature_never_reported options defaultVersion info key feature :
  parseOptions ecmaFeatures options defaultVersion = Some info ->
  ecmaFeatures !! key = Some feature ->
  key ∈ optionIgnores options \/
    (exists alias, alias ∈ Feature.alias feature /\
                   alias ∈ optionIgnores options) ->
  forall fuel scope n, report fuel info scope n key = Returns [].
Proof.
  intros Hinfo Hf Hign fuel scope n. unfold report.
  rewrite (parseOptions_lookup _ _ _ _ key Hinfo).
  unfold resolveFeature. rewrite Hf. simpl.
  by rewrite (isIgnored_by_key_or_alias _ _ _ _ Hf Hign).
Qed.

Lemma resolveFeature_same_thresholds range ignores key feature entry :
  ecmaFeatures !! key = Some feature ->
  sloppyThreshold (Feature.node feature)
  = strictThreshold (Feature.node feature) ->
  resolveFeature ecmaFeatures range ignores key = Some entry ->
  supported entry = supportedInStrict entry.
Proof.
  intros Hf Hth. unfold resolveFeature. rewrite Hf. simpl.
  destruct (isIgnored ecmaFeatures key ignores) as [[]|]; simpl;
    [by intros [= <-] | | done].
  destruct (Feature.node feature) as [th| |sloppy strict]; simpl in *.
  - destruct (reaches range th); simpl; [by intros [= <-] | done].
  - by intros [= <-].
  - subst strict.
    destruct (reachesByMode range sloppy); simpl; [by intros [= <-] | done].
Qed.

(** X11.  The scope matters only where the two modes have different
    thresholds: for a feature with one threshold (or the same one for both
    modes, or none), [report] returns for every node whatever the scope
    is, with the same diagnostics in every scope, and so never waits for
    the scope search. *)
Theorem same_thresholds_report_ignores_scope options defaultVersion info key
    feature :
  parseOptions ecmaFeatures options defaultVersion = Some info ->
  ecmaFeatures !! key = Some feature ->
  sloppyThreshold (Feature.node feature)
  = strictThreshold (Feature.node feature) ->
  forall n, exists reports,
    (length reports <= 1)%nat /\
    forall fuel scope, report fuel info scope n key = Returns reports.
Proof.
  intros Hinfo Hf Hth n.
  destruct (parseOptions_resolved _ _ _ _ _ _ Hinfo Hf) as (entry & He & Hr).
  pose proof (resolveFeature_same_thresholds _ _ _ _ _ Hf Hth Hr) as Hsame.
  unfold report. rewrite He.
  destruct (supported entry) eqn:Hs.
  - exists []. split; [simpl; lia | done].
  - rewrite <- Hsame. simpl. eexists. split; [|done]. simpl; lia.
Qed.

(** X12.  [report] on a key that the catalog does not have throws: the table of
    [parseOptions] has no entry for it, and [feature.supported] is read on
    [undefined]. *)
Theorem report_throws_outside_catalog options defaultVersion info key :
  parseOptions ecmaFeatures options defaultVersion = Some info ->
  ecmaFeatures !! key = None ->
  forall fuel scope n, report fuel info scope n key = Throws.
Proof.
  intros Hinfo Hnone fuel scope n. unfold report.
  rewrite (parseOptions_lookup _ _ _ _ key Hinfo).
  unfold resolveFeature. by rewrite Hnone.
Qed.

End IgnoresEnum.

Lemma parseOptions_table_complete_witness :
  dom (features sampleInfo) = dom sampleFeatures /\
  forall key feature,
    sampleFeatures !! key = Some feature ->
    exists entry,
      features sampleInfo !! key = Some entry /\
      name entry = Feature.name feature /\
      singular entry = default false (Feature.singular feature).
Proof.
  apply (parseOptions_table_complete sampleFeatures (OptString "7.6.0") "6.0.0"
           sampleInfo).
  vm_compute. reflexivity.
Defined.

Lemma support_is_threshold_met_witness :
  exists entry,
    features sampleInfo !! "modules" = Some entry /\
    supported entry = false /\ supportedInStrict entry = false.
Proof.
  apply (support_is_threshold_met sampleFeatures (OptString "7.6.0") "6.0.0"
           "7.6.0" (semver.mkSemVer 7 6 0) sampleInfo "modules"
           (Feature.mk ["syntax"] "import and export declarations" None
              (Feature.NodeByMode (Some "8.5.0") None))).
  - reflexivity.
  - vm_compute. reflexivity.
  - vm_compute. reflexivity.
  - vm_compute. reflexivity.
  - simpl. split; [eexists; vm_compute; reflexivity | exact I].
  - vm_compute. reflexivity.
Defined.

Lemma default_version_as_configured_witness :
  parseOptions sampleFeatures OptUndefined "6.0.0"
  = parseOptions sampleFeatures (OptString "6.0.0") "8.0.0".
Proof.
  apply (default_version_as_configured sampleFeatures OptUndefined
           (OptString "6.0.0") "6.0.0" (semver.mkSemVer 6 0 0) "8.0.0").
  - exact sampleFeatures_valid.
  - vm_compute. reflexivity.
  - reflexivity.
  - reflexivity.
  - reflexivity.
Defined.

Lemma more_ignores_keep_support_witness :
  exists info',
    parseOptions sampleFeatures
      (OptObject (VNumber 7.6%float) (Some ["modules"; "asyncAwait"])) "6.0.0"
    = Some info' /\
    version info' = version sampleInfo /\
    forall key entry,
      features sampleInfo !! key = Some entry ->
      exists entry',
        features info' !! key = Some entry' /\
        (supported entry = true -> supported entry' = true) /\
        (supportedInStrict entry = true -> supportedInStrict entry' = true).
Proof.
  apply (more_ignores_keep_support sampleFeatures
           (OptObject (VString "7.6.0") (Some ["asyncAwait"]))
           (OptObject (VNumber 7.6%float) (Some ["modules"; "asyncAwait"]))
           "6.0.0" sampleInfo).
  - vm_compute. reflexivity.
  - intros x Hx. simpl in *. by apply list_elem_of_further.
  - vm_compute. reflexivity.
Defined.

Lemma ignores_outside_enum_have_no_effect_witness :
  parseOptions sampleFeatures
    (OptObject (VString "4.0.0") (Some ["generators"; "syntax"])) "6.0.0"
  = parseOptions sampleFeatures
      (OptObject (VString "4.0.0")
         (Some (filter
                  (fun i => i ∈ ["syntax"; "classes"; "modules"; "asyncAwait";
                                 "asyncFunctions"])
                  ["generators"; "syntax"]))) "6.0.0".
Proof.
  apply (ignores_outside_enum_have_no_effect sampleFeatures
           ["syntax"; "classes"; "modules"; "asyncAwait"; "asyncFunctions"]
           (VString "4.0.0") ["generators"; "syntax"] "6.0.0").
  vm_compute. reflexivity.
Defined.

Lemma ignored_feature_never_reported_witness :
  report 0
    (mkSupportInfo "4.0.0"
       {[ "classes" := mkFeatureSupport "classes" false true true;
          "asyncAwait" := mkFeatureSupport "async functions" false true true;
          "modules" :=
            mkFeatureSupport "import and export declarations" false true
              true ]})
    gapScope (mkNode (7, 9) "Program" false) "modules"
  = Returns [].
Proof.
  apply (ignored_feature_never_reported sampleFeatures
           (OptObject (VString "4.0.0") (Some ["syntax"])) "6.0.0" _ "modules"
           (Feature.mk ["syntax"] "import and export declarations" None
              (Feature.NodeByMode (Some "8.5.0") None))).
  - vm_compute. reflexivity.
  - vm_compute. reflexivity.
  - right. exists "syntax". split; apply list_elem_of_here.
Defined.

Lemma same_thresholds_report_ignores_scope_witness :
  exists reports,
    (length reports <= 1)%nat /\
    forall fuel scope,
      report fuel sampleInfo scope (mkNode (7, 9) "Program" false) "classes"
      = Returns reports.
Proof.
  apply (same_thresholds_report_ignores_scope sampleFeatures
           (OptString "7.6.0") "6.0.0" sampleInfo "classes"
           (Feature.mk ["syntax"] "classes" None
              (Feature.NodeByMode (Some "6.0.0") (Some "6.0.0")))).
  - vm_compute. reflexivity.
  - vm_compute. reflexivity.
  - reflexivity.
Defined.

Lemma report_throws_outside_catalog_witness :
  report 0 sampleInfo gapScope (mkNode (7, 9) "ClassDeclaration" true)
    "extendsArray"
  = Throws.
Proof.
  apply (report_throws_outside_catalog sampleFeatures (OptString "7.6.0")
           "6.0.0" sampleInfo "extendsArray").
  - vm_compute. reflexivity.
  - vm_compute. reflexivity.
Defined.

Section ResolverErrors.

Variable ecmaFeatures : gmap string Feature.t.

Lemma VERSION_MAP_get_version n text :
  VERSION_MAP_get n = Some text -> is_Some (semver.parseVersion text).
Proof.
  unfold VERSION_MAP_get.
  destruct (List.find _ VERSION_MAP) as [entry|] eqn:Hfind; [|done].
  intros [= <-]. apply find_some in Hfind as [Hin _].
  pose proof VERSION_MAP_versions as Hall. rewrite Forall_forall in Hall.
  apply Hall. by apply list_elem_of_In.
Qed.

(** X13.  Every numeric shorthand of the schema gives a table: for a number that
    is a key of [VERSION_MAP], [parseOptions] returns, whatever the default
    version is (even one that is no range), and the table is that of the
    full version that the number stands for. *)
Theorem listed_number_gives_table n text defaultVersion :
  validCatalog ecmaFeatures ->
  VERSION_MAP_get n = Some text ->
  exists info,
    parseOptions ecmaFeatures (OptNumber n) defaultVersion = Some info /\
    version info = text /\
    parseOptions ecmaFeatures (OptString text) defaultVersion = Some info.
Proof.
  intros Hcat Hn.
  destruct (VERSION_MAP_get_version _ _ Hn) as [v Hv].
  assert (Hrange : optionRange (OptNumber n) defaultVersion
                   = Some [[semver.mkComparator semver.OpGe v]])
    by (by apply (optionRange_configured _ _ text)).
  destruct (parseOptions_total ecmaFeatures (OptNumber n) defaultVersion Hcat)
    as [info Hinfo]; [by rewrite Hrange|].
  exists info. split; [done|]. split.
  - rewrite (parseOptions_version _ _ _ _ Hinfo). simpl. rewrite Hn.
    simpl. by destruct text.
  - rewrite <- Hinfo. unfold parseOptions, optionRange. simpl. by rewrite Hn.
Qed.

Lemma resolveFeature_no_range ignores key feature :
  ecmaFeatures !! key = Some feature ->
  is_Some (resolveFeature ecmaFeatures None ignores key) <->
  isIgnored ecmaFeatures key ignores = Some true \/
  (sloppyThreshold (Feature.node feature) = None /\
   strictThreshold (Feature.node feature) = None).
Proof.
  intros Hf. unfold resolveFeature. rewrite Hf. simpl.
  rewrite (isIgnored_catalogued _ _ _ _ Hf). simpl.
  destruct (includes ignores key || _); simpl.
  - split; [by left | by eexists].
  - destruct (Feature.node feature) as [th| |[s|] [t|]]; simpl.
    + split; [by intros [? ?] | by intros [?|[? ?]]].
    + split; [by right | by eexists].
    + split; [by intros [? ?] | by intros [?|[? ?]]].
    + split; [by intros [? ?] | by intros [?|[? ?]]].
    + split; [by intros [? ?] | by intros [?|[? ?]]].
    + split; [by right | by eexists].
Qed.

Lemma numericIdentifier_chars s :
  numericIdentifier s = true -> allChars versionChar s = true.
Proof.
  intros H. apply (allChars_impl isDigit).
  - intros c Hc. unfold versionChar. by rewrite Hc.
  - destruct s as [|c [|c' rest]]; [done| |];
      destruct c as [[] [] [] [] [] [] [] []]; try done.
Qed.

(** A string of the schema's pattern is made of digits and dots. *)
Lemma VERSION_PATTERN_chars text :
  VERSION_PATTERN_test text = true -> allChars versionChar text = true.
Proof.
  unfold VERSION_PATTERN_test. intros H.
  apply (splitOn_chars versionChar "."); [reflexivity|].
  destruct (semver.splitOn "." text) as [|a [|b [|c [|d rest]]]]; try done.
  apply andb_prop in H as [[Ha%numericIdentifier_chars
                            Hb%numericIdentifier_chars]%andb_prop
                           Hc%numericIdentifier_chars].
  by repeat constructor.
Qed.

(** [validRange(`>=${text}`)] for a string of digits and dots that is no
    version: [null]. *)
Lemma validRange_ge_rejected text :
  allChars versionChar text = true ->
  semver.parseVersion text = None ->
  semver.validRange (">=" +:+ text) = None.
Proof.
  intros Hchars Hv.
  apply allChars_version_plain in Hchars as [Hsp Hor].
  change (">=" +:+ text) with (String ">" (String "=" text)).
  unfold semver.validRange.
  rewrite splitOr_single by (simpl; assumption). cbn [mapM].
  unfold semver.parseComparatorSet.
  rewrite splitOn_single by (simpl; assumption).
  cbn [filter list_filter]. rewrite decide_True by reflexivity.
  cbn [filter list_filter mapM semver.parseComparator]. by rewrite Hv.
Qed.

(** X14.  A version string that passes the pattern of the schema and has
    a number above [Number.MAX_SAFE_INTEGER] is no version for semver:
    [validRange] gives [null] for the range from it upward, and
    [semver.intersects] throws on [null].  [parseOptions] then returns
    only if it never compares, that is if every feature of the catalog is
    ignored or has no threshold at all; one feature with a threshold that
    is not ignored makes it throw. *)
Theorem unsafe_version_throws_at_first_threshold options defaultVersion text :
  optionVersion options = Some text ->
  VERSION_PATTERN_test text = true ->
  semver.parseVersion text = None ->
  is_Some (parseOptions ecmaFeatures options defaultVersion) <->
  forall key feature,
    ecmaFeatures !! key = Some feature ->
    isIgnored ecmaFeatures key (optionIgnores options) = Some true \/
    (sloppyThreshold (Feature.node feature) = None /\
     strictThreshold (Feature.node feature) = None).
Proof.
  intros Ho Hpat Hv.
  assert (Hrange : optionRange options defaultVersion = None).
  { unfold optionRange. rewrite Ho. simpl.
    destruct text as [|c rest]; [done|].
    apply validRange_ge_rejected; [|done]. by apply VERSION_PATTERN_chars. }
  rewrite parseOptions_defined, Hrange, Forall_forall. split.
  - intros Hall key feature Hf.
    apply (resolveFeature_no_range _ _ _ Hf), Hall, OPTIONS_elem. by eexists.
  - intros Hall key [feature Hf]%OPTIONS_elem.
    apply (resolveFeature_no_range _ _ _ Hf). by eapply Hall.
Qed.

End ResolverErrors.

Lemma listed_number_gives_table_witness :
  exists info,
    parseOptions sampleFeatures (OptNumber 7.6%float) "not a range"
    = Some info /\
    version info = "7.6.0" /\
    parseOptions sampleFeatures (OptString "7.6.0") "not a range" = Some info.
Proof.
  apply (listed_number_gives_table sampleFeatures 7.6%float "7.6.0"
           "not a range").
  - exact sampleFeatures_valid.
  - vm_compute. reflexivity.
Defined.

Lemma unsafe_version_throws_at_first_threshold_witness :
  is_Some (parseOptions sampleFeatures (OptString "9007199254740992.0.0")
             "6.0.0") <->
  forall key feature,
    sampleFeatures !! key = Some feature ->
    isIgnored sampleFeatures key [] = Some true \/
    (sloppyThreshold (Feature.node feature) = None /\
     strictThreshold (Feature.node feature) = None).
Proof.
  apply (unsafe_version_throws_at_first_threshold sampleFeatures
           (OptString "9007199254740992.0.0") "6.0.0" "9007199254740992.0.0").
  - reflexivity.
  - vm_compute. reflexivity.
  - vm_compute. reflexivity.
Defined.

(* --------------------------------------------------------------------- *)
(** ** Rule driver: the pass at the end of the traversal                 *)
(* --------------------------------------------------------------------- *)

Section ExitMore.

Variable ecmaFeatures : gmap string Feature.t.




End ExitMore.

(* --------------------------------------------------------------------- *)
(** ** Rule driver: reports and the scope search                         *)
(* --------------------------------------------------------------------- *)

(** X21.  When [report] returns for a feature that only strict code supports:
    exactly when the descent of the scope search from [context.getScope()]
    ends, that is when at every scope on the way either there is no child
    scope or some child scope contains the start of the node.  Otherwise
    the call does not return, however long it runs. *)
Theorem report_returns_iff_covered supportInfo scope n key feature :
  features supportInfo !! key = Some feature ->
  supported feature = false -> supportedInStrict feature = true ->
  ((exists fuel reports,
      report fuel supportInfo scope n key = Returns reports) <->
   covered (range n).1 scope = true) /\
  (covered (range n).1 scope = false <->
   forall fuel, report fuel supportInfo scope n key = Unfinished).
Proof.
  intros Hf Hs Ht.
  assert (Hrep : forall fuel,
    report fuel supportInfo scope n key =
    match getInnermostScope fuel scope (range n).1 with
    | None => Unfinished
    | Some found =>
        Returns (if isStrictScope found then []
                 else [mkReport n MESSAGE
                         [("feature", name feature +:+ " in non-strict mode");
                          ("be", beOf feature);
                          ("version", version supportInfo)]])
    end).
  { intros fuel. unfold report, isStrict. rewrite Hf, Hs, Ht. simpl.
    destruct (getInnermostScope fuel scope (range n).1) as [found|]; [|done].
    simpl. by destruct (isStrictScope found). }
  split; split.
  - intros (fuel & reports & Hret). apply (returns_covered _ fuel).
    rewrite Hrep in Hret.
    destruct (getInnermostScope fuel scope (range n).1); [by eexists | done].
  - intros Hc.
    destruct (covered_returns (range n).1 (depth scope) scope) as [found Hfound];
      [lia | done |].
    exists (depth scope). rewrite Hrep, Hfound. by eexists.
  - intros Hc fuel. rewrite Hrep.
    destruct (getInnermostScope fuel scope (range n).1) as [found|] eqn:Hfound;
      [|done].
    assert (covered (range n).1 scope = true)
      by (apply (returns_covered _ fuel); by rewrite Hfound).
    congruence.
  - intros Hall. destruct (covered (range n).1 scope) eqn:Hc; [|done].
    destruct (covered_returns (range n).1 (depth scope) scope) as [found Hfound];
      [lia | done |].
    specialize (Hall (depth scope)). rewrite Hrep, Hfound in Hall. done.
Qed.

(** X22.  Where the scope search ends, a feature that only strict code supports
    is reported if and only if the scope found is not strict; as many
    iterations as the scope tree is deep are enough, and the scope found is
    one without child scopes. *)
Theorem report_in_covered_scope supportInfo scope n key feature :
  features supportInfo !! key = Some feature ->
  supported feature = false -> supportedInStrict feature = true ->
  covered (range n).1 scope = true ->
  exists found,
    getInnermostScope (depth scope) scope (range n).1 = Some found /\
    childScopes found = [] /\
    forall fuel, (depth scope <= fuel)%nat ->
      report fuel supportInfo scope n key =
      Returns (if isStrictScope found then []
               else [mkReport n MESSAGE
                       [("feature", name feature +:+ " in non-strict mode");
                        ("be", beOf feature);
                        ("version", version supportInfo)]]).
Proof.
  intros Hf Hs Ht Hc.
  destruct (covered_returns (range n).1 (depth scope) scope) as [found Hfound];
    [lia | done |].
  exists found. split; [done|]. split.
  - by eapply getInnermostScope_returns_leaf.
  - intros fuel Hle. unfold report, isStrict. rewrite Hf, Hs, Ht. simpl.
    rewrite (getInnermostScope_more_fuel _ _ _ _ _ Hfound Hle). simpl.
    by destruct (isStrictScope found).
Qed.

Lemma report_returns_iff_covered_witness :
  ((exists fuel reports,
      report fuel strictOnlyInfo nestedScope (mkNode (40, 45) "Program" false)
        "const" = Returns reports) <->
   covered 40 nestedScope = true) /\
  (covered 40 nestedScope = false <->
   forall fuel,
     report fuel strictOnlyInfo nestedScope (mkNode (40, 45) "Program" false)
       "const" = Unfinished).
Proof.
  apply (report_returns_iff_covered strictOnlyInfo nestedScope
           (mkNode (40, 45) "Program" false) "const"
           (mkFeatureSupport "'const' declarations" false false true));
    reflexivity.
Defined.

Lemma report_in_covered_scope_witness :
  exists found,
    getInnermostScope (depth nestedScope) nestedScope 25 = Some found /\
    childScopes found = [] /\
    forall fuel, (depth nestedScope <= fuel)%nat ->
      report fuel strictOnlyInfo nestedScope (mkNode (25, 27) "Program" false)
        "const" =
      Returns (if isStrictScope found then []
               else [mkReport (mkNode (25, 27) "Program" false) MESSAGE
                       [("feature",
                         "'const' declarations" +:+ " in non-strict mode");
                        ("be", "are"); ("version", "4.0.0")]]).
Proof.
  apply (report_in_covered_scope strictOnlyInfo nestedScope
           (mkNode (25, 27) "Program" false) "const"
           (mkFeatureSupport "'const' declarations" false false true));
    reflexivity.
Defined.
